(** * HashTable.cpp: a chained hash table of bids

    A shallow embedding of the [HashTable] class of [src/HashTable.cpp]
    (constructors, [hash], [Insert], [PrintAll], [Remove], [Search]) and the
    properties the design document states about it.

    Modelling choices.
    - [unsigned int] values are [Z] in [0, UINT_MAX]; [size_t] values are [Z]
      taken modulo [2^64].
    - [std::string] is [string]; [double] is [spec_float] (the amount is only
      ever copied, never computed with).
    - A [Node] owns its successor: the [next] pointer is an [option Node],
      [nullptr] is [None].  Heap addresses are not modelled.
    - [vector<Node> nodes] is a [list Node] read with [!!] and written with
      [<[_:=_]>].  [operator[]] out of range and [% 0] are undefined
      behaviour in the source: the operations return [None] there.
    - [std::hash<std::string>] is implementation defined: it is a parameter
      (class [StdHash]). *)

From Stdlib Require Import ZArith Ascii String Floats.SpecFloat.
From stdpp Require Import base option list strings.

Local Open Scope string_scope.
Local Open Scope Z_scope.

(** ** Constants and records *)

Definition UINT_MAX : Z := 4294967295.

Definition DEFAULT_SIZE : Z := 179.

(** [struct Bid]; the constructor [Bid()] leaves the strings empty and sets
    [amount = 0.0]. *)
Record Bid : Type := mkBid {
  bidId : string;
  title : string;
  fund : string;
  amount : spec_float
}.

Definition Bid_default : Bid := mkBid "" "" "" (S754_zero false).

(** [struct Node]: a bid, the bucket index it was stored under, and the owned
    successor. *)
#[local] Unset Elimination Schemes.
Inductive Node : Type := mkNode {
  bid : Bid;
  key : Z;
  next : option Node
}.
#[local] Set Elimination Schemes.

(** [Node()] : [key = UINT_MAX], [next = nullptr], [bid = Bid()]. *)
Definition Node_default : Node := mkNode Bid_default UINT_MAX None.

(** [Node(Bid aBid, unsigned int aKey)]. *)
Definition Node_of (aBid : Bid) (aKey : Z) : Node := mkNode aBid aKey None.

Record HashTable : Type := mkHashTable {
  nodes : list Node;
  tableSize : Z
}.

(** [std::hash<std::string>{}], the result read as a [size_t]. *)
Class StdHash := std_hash : string → Z.

Definition size_t_wrap (z : Z) : Z := z mod 2 ^ 64.

Definition uint_wrap (z : Z) : Z := z mod 2 ^ 32.

(** A concrete string hash used for the worked examples: the sum of the
    character codes.  With a table of size 5 it sends both ["A"] (65) and
    ["F"] (70) to bucket 0. *)
Fixpoint code_sum (s : string) : Z :=
  match s with
  | EmptyString => 0
  | String c r => Z.of_N (Ascii.N_of_ascii c) + code_sum r
  end.

Section Table.
Context `{StdHash}.

(** ** Constructors *)

(** [HashTable::HashTable()]. *)
Definition HashTable_default : HashTable :=
  mkHashTable (replicate (Z.to_nat DEFAULT_SIZE) Node_default) DEFAULT_SIZE.

(** [HashTable::HashTable(unsigned int size)]. *)
Definition HashTable_new (size : Z) : HashTable :=
  let ts := if size =? 0 then DEFAULT_SIZE else size in
  mkHashTable (replicate (Z.to_nat ts) Node_default) ts.

(** ** Hashing *)

(** The index computed by [hash(const std::string&)] for a table of size
    [ts]: a [size_t] remainder converted to [unsigned int]. *)
Definition bucket_of (ts : Z) (k : string) : Z :=
  uint_wrap (size_t_wrap (std_hash k) mod ts).

(** [HashTable::hash(const std::string& key)].  The remainder by zero is
    undefined. *)
Definition hash (t : HashTable) (k : string) : option Z :=
  if tableSize t =? 0 then None else Some (bucket_of (tableSize t) k).

(** ** Insert *)

(** The loop of [Insert] (lines 222-240) started at [curr_bucket]; the result
    is the node [curr_bucket] after the call. *)
Fixpoint insert_walk (b : Bid) (bucket_index : Z) (curr_bucket : Node) : Node :=
  match next curr_bucket with
  | Some nx =>
      if decide (bidId (bid curr_bucket) = bidId b)
      then mkNode b (key curr_bucket) (next curr_bucket)
      else mkNode (bid curr_bucket) (key curr_bucket)
                  (Some (insert_walk b bucket_index nx))
  | None =>
      if decide (bidId (bid curr_bucket) = bidId b)
      then mkNode b (key curr_bucket) (next curr_bucket)
      else mkNode (bid curr_bucket) (key curr_bucket)
                  (Some (Node_of b bucket_index))
  end.

(** What [Insert] leaves in the head slot [nodes[bucket_index]]. *)
Definition insert_head (b : Bid) (bucket_index : Z) (head : Node) : Node :=
  if key head =? UINT_MAX
  then mkNode b bucket_index None
  else insert_walk b bucket_index head.

(** [HashTable::Insert(const Bid& bid)]. *)
Definition Insert (b : Bid) (t : HashTable) : option HashTable :=
  bucket_index ← hash t (bidId b);
  head ← nodes t !! Z.to_nat bucket_index;
  Some (mkHashTable
          (<[Z.to_nat bucket_index := insert_head b bucket_index head]> (nodes t))
          (tableSize t)).

(** ** PrintAll *)

(** The inner loop of [PrintAll] started at a non-null [iter]: one output line
    [(key, bid)] per node whose key is not [UINT_MAX]. *)
Fixpoint print_chain (iter : Node) : list (Z * Bid) :=
  (if key iter =? UINT_MAX then [] else [(key iter, bid iter)])
  ++ match next iter with
     | Some nx => print_chain nx
     | None => []
     end.

(** [HashTable::PrintAll()]: the lines written to [cout], in order. *)
Definition PrintAll (t : HashTable) : option (list (Z * Bid)) :=
  lines ← mapM (λ bucket_index : Z,
                  print_chain <$> nodes t !! Z.to_nat bucket_index)
               (seqZ 0 (tableSize t));
  Some (concat lines).

(** ** Remove *)

(** The loop of [Remove] (lines 310-320) with [prev_bucket] given and
    [curr_bucket = prev_bucket->next]; the result is [prev_bucket] after the
    loop. *)
Fixpoint remove_walk (id : string) (prev_bucket : Node) : Node :=
  match next prev_bucket with
  | None => prev_bucket
  | Some curr_bucket =>
      if decide (bidId (bid curr_bucket) = id)
      then mkNode (bid prev_bucket) (key prev_bucket) (next curr_bucket)
      else mkNode (bid prev_bucket) (key prev_bucket)
                  (Some (remove_walk id curr_bucket))
  end.

(** What [Remove] leaves in the head slot [nodes[bucket_index]]; the
    branches that return without a write (the empty bucket, a chain without
    a match) leave the head as it is. *)
Definition remove_head (id : string) (head : Node) : Node :=
  if (key head =? UINT_MAX) && bool_decide (next head = None)
  then head
  else if negb (key head =? UINT_MAX) && bool_decide (bidId (bid head) = id)
  then match next head with
       | None => mkNode Bid_default UINT_MAX None
       | Some nextBucket =>
           mkNode (bid nextBucket) (key nextBucket) (next nextBucket)
       end
  else remove_walk id head.

(** [HashTable::Remove(const std::string& bidId)]. *)
Definition Remove (id : string) (t : HashTable) : option HashTable :=
  bucket_index ← hash t id;
  head ← nodes t !! Z.to_nat bucket_index;
  Some (mkHashTable
          (<[Z.to_nat bucket_index := remove_head id head]> (nodes t))
          (tableSize t)).

(** ** Search *)

(** The loop of [Search] (lines 353-358) started at a non-null
    [curr_bucket]; falling off the chain returns the default bid. *)
Fixpoint search_walk (id : string) (curr_bucket : Node) : Bid :=
  if decide (bidId (bid curr_bucket) = id)
  then bid curr_bucket
  else match next curr_bucket with
       | Some nx => search_walk id nx
       | None => Bid_default
       end.

Definition search_head (id : string) (head : Node) : Bid :=
  if negb (key head =? UINT_MAX) && bool_decide (bidId (bid head) = id)
  then bid head
  else match next head with
       | Some curr_bucket => search_walk id curr_bucket
       | None => Bid_default
       end.

(** [HashTable::Search(const std::string& bidId)]. *)
Definition Search (id : string) (t : HashTable) : option Bid :=
  bucket_index ← hash t id;
  head ← nodes t !! Z.to_nat bucket_index;
  Some (search_head id head).

(** ** Sequences of calls *)

(** A call made by a client of the table. *)
Inductive Op : Type :=
  | OpInsert (b : Bid)
  | OpRemove (id : string).

Definition step (o : Op) (t : HashTable) : option HashTable :=
  match o with
  | OpInsert b => Insert b t
  | OpRemove id => Remove id t
  end.

Fixpoint run (ops : list Op) (t : HashTable) : option HashTable :=
  match ops with
  | [] => Some t
  | o :: rest => step o t ≫= run rest
  end.

(** A table as one of the two constructors leaves it; the argument of the
    second is an [unsigned int]. *)
Definition constructed (t : HashTable) : Prop :=
  t = HashTable_default
  ∨ ∃ size : Z, 0 ≤ size ≤ UINT_MAX ∧ t = HashTable_new size.

(** The table states a program can be in: a constructor call followed by
    any number of [Insert] and [Remove] calls. *)
Definition reachable (t : HashTable) : Prop :=
  ∃ (t0 : HashTable) (ops : list Op), constructed t0 ∧ run ops t0 = Some t.

(** The shape every operation needs for its array accesses to be defined:
    a non-zero [unsigned int] size and one head node per bucket. *)
Definition well_formed (t : HashTable) : Prop :=
  0 < tableSize t ≤ UINT_MAX ∧ length (nodes t) = Z.to_nat (tableSize t).

(** The identifiers on the lines printed by [PrintAll]. *)
Definition printed_ids (out : list (Z * Bid)) : list string :=
  (λ line, bidId line.2) <$> out.

(** The test [main] applies to the result of [Search] (line 554):
    [!bid.bidId.empty()]. *)
Definition bid_found (b : Bid) : bool :=
  negb (bool_decide (bidId b = "")).

(** ** The table as the design document describes it

    The document describes the contents of the table as records with unique
    identifiers, kept in insertion order inside each bucket.  The following
    definitions follow its words: the stored records are one list in
    insertion order. *)

(** Section 4.2: a record whose identifier is already stored overwrites that
    record in place; a record with a new identifier is appended. *)
Fixpoint spec_insert (b : Bid) (l : list Bid) : list Bid :=
  match l with
  | [] => [b]
  | x :: rest =>
      if decide (bidId x = bidId b) then b :: rest else x :: spec_insert b rest
  end.

(** Section 4.4: the record with the identifier is dropped, the others keep
    their order; an absent identifier changes nothing. *)
Fixpoint spec_remove (id : string) (l : list Bid) : list Bid :=
  match l with
  | [] => []
  | x :: rest =>
      if decide (bidId x = id) then rest else x :: spec_remove id rest
  end.

(** Section 4.3: the record with the identifier, or the sentinel. *)
Fixpoint spec_search (id : string) (l : list Bid) : Bid :=
  match l with
  | [] => Bid_default
  | x :: rest => if decide (bidId x = id) then x else spec_search id rest
  end.

Definition spec_step (o : Op) (l : list Bid) : list Bid :=
  match o with
  | OpInsert b => spec_insert b l
  | OpRemove id => spec_remove id l
  end.

Fixpoint spec_run (ops : list Op) (l : list Bid) : list Bid :=
  match ops with
  | [] => l
  | o :: rest => spec_run rest (spec_step o l)
  end.

(** The records of [l] that belong to bucket [i] of a table of size [ts], in
    the order of [l]. *)
Definition bucket_bids (ts i : Z) (l : list Bid) : list Bid :=
  filter (λ b, bucket_of ts (bidId b) = i) l.

(** Section 4.5: buckets in index order, and inside a bucket the records in
    insertion order, each printed with its bucket index. *)
Definition spec_enumerate (ts : Z) (l : list Bid) : list (Z * Bid) :=
  i ← seqZ 0 ts; (λ b, (i, b)) <$> bucket_bids ts i l.

(** ** The layout of one bucket *)

(** The overflow chain that holds the records [bs], every node carrying the
    bucket index [i]. *)
Fixpoint chain_of (i : Z) (bs : list Bid) : option Node :=
  match bs with
  | [] => None
  | b :: rest => Some (mkNode b i (chain_of i rest))
  end.

(** The head slot of bucket [i] holding the records [bs]: the first record
    sits in the slot itself, an empty bucket is a default node. *)
Definition head_of (i : Z) (bs : list Bid) : Node :=
  match bs with
  | [] => Node_default
  | b :: rest => mkNode b i (chain_of i rest)
  end.

(** [represents t l]: the table [t] stores exactly the records [l], each in
    the bucket of its identifier, in the layout above. *)
Definition represents (t : HashTable) (l : list Bid) : Prop :=
  well_formed t
  ∧ NoDup (bidId <$> l)
  ∧ ∀ (i : nat) (head : Node),
      nodes t !! i = Some head →
      head = head_of (Z.of_nat i) (bucket_bids (tableSize t) (Z.of_nat i) l).

End Table.

(** ** Further functions of the file *)

Section Rest.
Context `{StdHash}.

(** [HashTable::hash(int key)]: the key is converted to [unsigned int]
    before the remainder is taken. *)
Definition hash_int (t : HashTable) (k : Z) : option Z :=
  if tableSize t =? 0 then None else Some (uint_wrap k mod tableSize t).

(** *** Heap nodes

    The overflow nodes are the only heap objects of the table: [Insert]
    creates them with [new], [Remove] and the destructor release them with
    [delete]. *)

(** The number of nodes behind [n] on its chain. *)
Fixpoint chain_length (n : Node) : nat :=
  match next n with
  | Some nx => S (chain_length nx)
  | None => 0%nat
  end.

(** The number of overflow nodes the table owns. *)
Definition overflow_nodes (t : HashTable) : nat :=
  sum_list_with chain_length (nodes t).

(** How often the loop of [Insert] started at [curr_bucket] reaches
    [new Node] (line 238). *)
Fixpoint insert_walk_news (b : Bid) (curr_bucket : Node) : nat :=
  match next curr_bucket with
  | Some nx =>
      if decide (bidId (bid curr_bucket) = bidId b) then 0%nat
      else insert_walk_news b nx
  | None =>
      if decide (bidId (bid curr_bucket) = bidId b) then 0%nat else 1%nat
  end.

Definition insert_head_news (b : Bid) (head : Node) : nat :=
  if key head =? UINT_MAX then 0%nat else insert_walk_news b head.

(** The number of [new] executed by [Insert b]. *)
Definition Insert_news (b : Bid) (t : HashTable) : option nat :=
  bucket_index ← hash t (bidId b);
  head ← nodes t !! Z.to_nat bucket_index;
  Some (insert_head_news b head).

(** How often the loop of [Remove] reaches [delete curr_bucket]
    (line 315). *)
Fixpoint remove_walk_deletes (id : string) (prev_bucket : Node) : nat :=
  match next prev_bucket with
  | None => 0%nat
  | Some curr_bucket =>
      if decide (bidId (bid curr_bucket) = id) then 1%nat
      else remove_walk_deletes id curr_bucket
  end.

(** The [delete]s of [Remove] on a head: [delete nextBucket] (line 305) when
    it promotes, or those of the loop. *)
Definition remove_head_deletes (id : string) (head : Node) : nat :=
  if (key head =? UINT_MAX) && bool_decide (next head = None)
  then 0%nat
  else if negb (key head =? UINT_MAX) && bool_decide (bidId (bid head) = id)
  then match next head with
       | None => 0%nat
       | Some nextBucket => 1%nat
       end
  else remove_walk_deletes id head.

(** The number of [delete] executed by [Remove id]. *)
Definition Remove_deletes (id : string) (t : HashTable) : option nat :=
  bucket_index ← hash t id;
  head ← nodes t !! Z.to_nat bucket_index;
  Some (remove_head_deletes id head).

Definition step_news (o : Op) (t : HashTable) : option nat :=
  match o with
  | OpInsert b => Insert_news b t
  | OpRemove id => Some 0%nat
  end.

Definition step_deletes (o : Op) (t : HashTable) : option nat :=
  match o with
  | OpInsert b => Some 0%nat
  | OpRemove id => Remove_deletes id t
  end.

(** The [new]s and the [delete]s of a sequence of calls. *)
Fixpoint run_news (ops : list Op) (t : HashTable) : option nat :=
  match ops with
  | [] => Some 0%nat
  | o :: rest =>
      n ← step_news o t; t' ← step o t; m ← run_news rest t';
      Some (n + m)%nat
  end.

Fixpoint run_deletes (ops : list Op) (t : HashTable) : option nat :=
  match ops with
  | [] => Some 0%nat
  | o :: rest =>
      n ← step_deletes o t; t' ← step o t; m ← run_deletes rest t';
      Some (n + m)%nat
  end.

(** *** Destructor *)

(** The inner loop of the destructor (lines 153-159) started at a non-null
    [curr_bucket]: the number of [delete] executed. *)
Fixpoint delete_chain (curr_bucket : Node) : nat :=
  S (match next curr_bucket with
     | Some nextBucket => delete_chain nextBucket
     | None => 0%nat
     end).

(** One round of the outer loop: the chain of [nodes[bucket_index]] is
    deleted, the head gets [next = nullptr] and [key = UINT_MAX]. *)
Definition destroy_bucket (bucket_index : Z) (ns : list Node)
    : option (list Node * nat) :=
  head ← ns !! Z.to_nat bucket_index;
  Some (<[Z.to_nat bucket_index := mkNode (bid head) UINT_MAX None]> ns,
        match next head with
        | Some curr_bucket => delete_chain curr_bucket
        | None => 0%nat
        end).

Fixpoint destroy_buckets (idxs : list Z) (ns : list Node)
    : option (list Node * nat) :=
  match idxs with
  | [] => Some (ns, 0%nat)
  | bucket_index :: rest =>
      r1 ← destroy_bucket bucket_index ns;
      r2 ← destroy_buckets rest r1.1;
      Some (r2.1, (r1.2 + r2.2)%nat)
  end.

(** [HashTable::~HashTable()]: the heads as the loop leaves them, before
    [nodes.clear()] empties the vector, and the number of [delete]
    executed. *)
Definition HashTable_destructor (t : HashTable) : option (list Node * nat) :=
  destroy_buckets (seqZ 0 (tableSize t)) (nodes t).

End Rest.

(** ** Loading bids *)

(** [atof] of the C library. *)
Class Atof := atof : string → spec_float.

(** An opened [csv::Parser]: its [rowCount()] and its cells [file[i][j]];
    [None] stands for a read that throws [csv::Error]. *)
Class CsvFile := mkCsvFile {
  rowCount : nat;
  cell : nat → nat → option string
}.

(** [str.erase(remove(str.begin(), str.end(), ch), str.end())]. *)
Fixpoint erase_char (ch : Ascii.ascii) (str : string) : string :=
  match str with
  | EmptyString => EmptyString
  | String c rest =>
      if Ascii.eqb c ch then erase_char ch rest
      else String c (erase_char ch rest)
  end.

Section Loader.
Context `{StdHash} `{Atof} `{CsvFile}.

(** [strToDouble(string str, char ch)]. *)
Definition strToDouble (str : string) (ch : Ascii.ascii) : spec_float :=
  atof (erase_char ch str).

(** The body of the loop of [loadBids] up to the call of [Insert]: the bid
    of row [i], or [None] when one of the four reads throws. *)
Definition row_bid (i : nat) : option Bid :=
  id ← cell i 1;
  ti ← cell i 0;
  fu ← cell i 8;
  am ← cell i 4;
  Some (mkBid id ti fu (strToDouble am "$"%char)).

(** The loop of [loadBids] over the rows [rows]; a [csv::Error] leaves the
    loop for the [catch] block, which keeps the table as it is. *)
Fixpoint load_rows (rows : list nat) (t : HashTable) : option HashTable :=
  match rows with
  | [] => Some t
  | i :: rest =>
      match row_bid i with
      | None => Some t
      | Some b => Insert b t ≫= load_rows rest
      end
  end.

(** [loadBids(string csvPath, HashTable *hashTable)]: the table after the
    call. *)
Definition loadBids (t : HashTable) : option HashTable :=
  load_rows (seq 0 rowCount) t.

(** The bids of the rows before the first one that cannot be read. *)
Fixpoint readable_prefix (rows : list nat) : list Bid :=
  match rows with
  | [] => []
  | i :: rest =>
      match row_bid i with
      | None => []
      | Some b => b :: readable_prefix rest
      end
  end.

End Loader.

(** ** Worked examples (hash: [code_sum]) *)

Definition bid_A : Bid := mkBid "A" "Chair" "General Fund" (S754_zero false).

Definition bid_A2 : Bid := mkBid "A" "Desk" "Enterprise" (S754_zero false).

Definition bid_F : Bid := mkBid "F" "Lamp" "General Fund" (S754_zero false).

Definition bid_B : Bid := mkBid "B" "Table" "Enterprise" (S754_zero false).

Definition bid_B2 : Bid := mkBid "B" "Bench" "General Fund" (S754_zero false).

Definition bid_empty : Bid := mkBid "" "Sofa" "General Fund" (S754_zero false).

(** A table of size 5 after inserting ["A"], ["F"] (same bucket) and ["B"]. *)
Definition ops_AFB : list Op := [OpInsert bid_A; OpInsert bid_F; OpInsert bid_B].

Definition table_AFB : HashTable :=
  default (HashTable_new 5) (@run code_sum ops_AFB (HashTable_new 5)).

(** Its bucket 0: ["A"] in the head slot, ["F"] in the overflow node. *)
Definition head_AF : Node := mkNode bid_A 0 (Some (mkNode bid_F 0 None)).

(** What [PrintAll] writes for it. *)
Definition out_AFB : list (Z * Bid) := [(0, bid_A); (0, bid_F); (1, bid_B)].

(** The same calls followed by the removal of the head of bucket 0. *)
Definition ops_AFB_rmA : list Op := ops_AFB ++ [OpRemove "A"].

Definition table_AFB_rmA : HashTable :=
  default (HashTable_new 5) (@run code_sum ops_AFB_rmA (HashTable_new 5)).

(** A stand-in for [atof] in the examples: the value of the leading decimal
    digits of the string. *)
Fixpoint leading_digits (acc : N) (s : string) : N :=
  match s with
  | EmptyString => acc
  | String c rest =>
      let d := N_of_ascii c in
      if (48 <=? d)%N && (d <=? 57)%N
      then leading_digits (10 * acc + (d - 48)) rest
      else acc
  end.

Definition digits_atof : Atof :=
  λ s, match leading_digits 0 s with
       | N0 => S754_zero false
       | Npos p => S754_finite false p 0
       end.

(** A file of four rows: two rows for ["A"], a row that is too short to
    have a ninth column, and a row for ["B"]. *)
Definition rows_AAxB : list (list string) :=
  [ ["Chair"; "A"; ""; ""; "$12"; ""; ""; ""; "General Fund"];
    ["Desk"; "A"; ""; ""; "$3$4"; ""; ""; ""; "Enterprise"];
    ["Lamp"; "F"; ""; ""; "$5"];
    ["Table"; "B"; ""; ""; "$6"; ""; ""; ""; "Enterprise"] ].

Definition file_AAxB : CsvFile :=
  mkCsvFile 4 (λ i j, row ← rows_AAxB !! i; row !! j).

Definition bid_A_row0 : Bid :=
  mkBid "A" "Chair" "General Fund" (S754_finite false 12 0).

Definition bid_A_row1 : Bid :=
  mkBid "A" "Desk" "Enterprise" (S754_finite false 34 0).

(** Closed facts about the examples are settled by evaluation. *)
Ltac evaluate := vm_compute; repeat split; try reflexivity; try discriminate.

(** [reachable t] for the table built by [ops] from [HashTable_new size]. *)
Ltac reached_by size ops :=
  exists (HashTable_new size), ops;
  split; [right; exists size; evaluate|reflexivity].

(** * Proofs *)

Section Proofs.
Context `{StdHash}.

Lemma HashTable_default_new : HashTable_default = HashTable_new 0.
Proof. reflexivity. Qed.

(** ** Chains *)

(** Induction along the [next] pointers. *)
Lemma Node_chain_ind (P : Node → Prop) :
  (∀ b k, P (mkNode b k None)) →
  (∀ b k n, P n → P (mkNode b k (Some n))) →
  ∀ n, P n.
Proof.
  intros Hlast Hlink. fix IH 1. intros [b k [n|]].
  - apply Hlink, IH.
  - apply Hlast.
Qed.

Lemma insert_walk_key b i n : key (insert_walk b i n) = key n.
Proof.
  destruct n as [x k [n|]]; simpl; case_decide; reflexivity.
Qed.

Lemma search_insert_walk b i n :
  search_walk (bidId b) (insert_walk b i n) = b.
Proof.
  induction n as [x k|x k n IH] using Node_chain_ind; simpl.
  - case_decide as Hx; simpl.
    + rewrite decide_True by reflexivity. reflexivity.
    + rewrite decide_False by exact Hx. rewrite decide_True by reflexivity.
      reflexivity.
  - case_decide as Hx; simpl.
    + rewrite decide_True by reflexivity. reflexivity.
    + rewrite decide_False by exact Hx. exact IH.
Qed.

Lemma search_head_occupied id head :
  key head ≠ UINT_MAX → search_head id head = search_walk id head.
Proof.
  intros Hk. unfold search_head.
  destruct head as [x k nx]; simpl in *.
  destruct (Z.eqb_spec k UINT_MAX) as [|_]; [contradiction|]. simpl.
  rewrite bool_decide_decide. case_decide; reflexivity.
Qed.

Lemma search_insert_head b i head :
  i ≠ UINT_MAX → search_head (bidId b) (insert_head b i head) = b.
Proof.
  intros Hi. unfold insert_head.
  destruct (Z.eqb_spec (key head) UINT_MAX) as [Hk|Hk].
  - rewrite search_head_occupied by exact Hi. simpl.
    rewrite decide_True by reflexivity. reflexivity.
  - rewrite search_head_occupied by (rewrite insert_walk_key; exact Hk).
    apply search_insert_walk.
Qed.

(** ** Array accesses of a well-formed table *)

Lemma bucket_of_range ts k :
  0 < ts ≤ UINT_MAX → 0 ≤ bucket_of ts k < ts.
Proof.
  intros Hts. unfold bucket_of, uint_wrap, UINT_MAX in *.
  pose proof (Z.mod_pos_bound (size_t_wrap (std_hash k)) ts ltac:(lia)).
  rewrite Z.mod_small; lia.
Qed.

Lemma bucket_of_not_marker ts k :
  0 < ts ≤ UINT_MAX → bucket_of ts k ≠ UINT_MAX.
Proof. intros Hts. pose proof (bucket_of_range ts k Hts). lia. Qed.

Lemma hash_well_formed t k :
  well_formed t → hash t k = Some (bucket_of (tableSize t) k).
Proof.
  intros [Hts _]. unfold hash.
  destruct (Z.eqb_spec (tableSize t) 0); [lia|reflexivity].
Qed.

Lemma head_well_formed t k :
  well_formed t →
  ∃ head, nodes t !! Z.to_nat (bucket_of (tableSize t) k) = Some head.
Proof.
  intros [Hts Hlen]. apply lookup_lt_is_Some_2.
  pose proof (bucket_of_range (tableSize t) k Hts). lia.
Qed.

Lemma Insert_well_formed b t :
  well_formed t →
  ∃ head,
    nodes t !! Z.to_nat (bucket_of (tableSize t) (bidId b)) = Some head
    ∧ Insert b t =
        Some (mkHashTable
                (<[Z.to_nat (bucket_of (tableSize t) (bidId b)) :=
                     insert_head b (bucket_of (tableSize t) (bidId b)) head]>
                   (nodes t))
                (tableSize t)).
Proof.
  intros Hwf. destruct (head_well_formed t (bidId b) Hwf) as [head Hhead].
  exists head. split; [exact Hhead|].
  unfold Insert. rewrite hash_well_formed by exact Hwf. simpl.
  rewrite Hhead. reflexivity.
Qed.

Lemma Remove_well_formed id t :
  well_formed t →
  ∃ head,
    nodes t !! Z.to_nat (bucket_of (tableSize t) id) = Some head
    ∧ Remove id t =
        Some (mkHashTable
                (<[Z.to_nat (bucket_of (tableSize t) id) :=
                     remove_head id head]> (nodes t))
                (tableSize t)).
Proof.
  intros Hwf. destruct (head_well_formed t id Hwf) as [head Hhead].
  exists head. split; [exact Hhead|].
  unfold Remove. rewrite hash_well_formed by exact Hwf. simpl.
  rewrite Hhead. reflexivity.
Qed.

Lemma Search_well_formed id t :
  well_formed t →
  ∃ head,
    nodes t !! Z.to_nat (bucket_of (tableSize t) id) = Some head
    ∧ Search id t = Some (search_head id head).
Proof.
  intros Hwf. destruct (head_well_formed t id Hwf) as [head Hhead].
  exists head. split; [exact Hhead|].
  unfold Search. rewrite hash_well_formed by exact Hwf. simpl.
  rewrite Hhead. reflexivity.
Qed.

Lemma well_formed_set_head t i head :
  well_formed t →
  well_formed (mkHashTable (<[i := head]> (nodes t)) (tableSize t)).
Proof.
  intros [Hts Hlen]. split; simpl; [exact Hts|].
  rewrite length_insert. exact Hlen.
Qed.

Lemma well_formed_new size :
  0 ≤ size ≤ UINT_MAX → well_formed (HashTable_new size).
Proof.
  intros Hsize. unfold HashTable_new, well_formed; simpl.
  rewrite length_replicate. split; [|reflexivity].
  destruct (Z.eqb_spec size 0); unfold DEFAULT_SIZE, UINT_MAX in *; lia.
Qed.

(** ** Operations on a bucket in the standard layout *)

Lemma chain_of_head_of i bs :
  bs ≠ [] → chain_of i bs = Some (head_of i bs).
Proof. destruct bs; [contradiction|reflexivity]. Qed.

Lemma spec_insert_not_nil b l : spec_insert b l ≠ [].
Proof. destruct l; simpl; [|case_decide]; discriminate. Qed.

Lemma insert_walk_chain b i x r :
  Some (insert_walk b i (mkNode x i (chain_of i r)))
  = chain_of i (spec_insert b (x :: r)).
Proof.
  revert x. induction r as [|y r IH]; intros x.
  - simpl. case_decide; reflexivity.
  - specialize (IH y). simpl in *.
    destruct (decide (bidId x = bidId b)); [reflexivity|].
    simpl. rewrite IH. reflexivity.
Qed.

Lemma insert_head_of b i bs :
  i ≠ UINT_MAX →
  insert_head b i (head_of i bs) = head_of i (spec_insert b bs).
Proof.
  intros Hi. unfold insert_head. destruct bs as [|x r].
  - reflexivity.
  - cbn [head_of key].
    destruct (Z.eqb_spec i UINT_MAX) as [|_]; [contradiction|].
    apply (inj Some). rewrite insert_walk_chain.
    apply chain_of_head_of, spec_insert_not_nil.
Qed.

Lemma remove_walk_chain id i x k r :
  remove_walk id (mkNode x k (chain_of i r))
  = mkNode x k (chain_of i (spec_remove id r)).
Proof.
  revert x k. induction r as [|y r IH]; intros x k.
  - reflexivity.
  - specialize (IH y i). simpl in *.
    destruct (decide (bidId y = id)); [reflexivity|].
    simpl. rewrite IH. reflexivity.
Qed.

Lemma remove_head_of id i bs :
  i ≠ UINT_MAX →
  remove_head id (head_of i bs) = head_of i (spec_remove id bs).
Proof.
  intros Hi. unfold remove_head. destruct bs as [|x r].
  - reflexivity.
  - cbn [head_of key bid next spec_remove].
    destruct (Z.eqb_spec i UINT_MAX) as [|_]; [contradiction|].
    cbn [andb negb]. rewrite bool_decide_decide.
    destruct (decide (bidId x = id)).
    + destruct r; reflexivity.
    + apply remove_walk_chain.
Qed.

Lemma search_walk_chain id i l :
  match chain_of i l with
  | Some n => search_walk id n
  | None => Bid_default
  end = spec_search id l.
Proof.
  induction l as [|x r IH]; simpl; [reflexivity|].
  case_decide; [reflexivity|exact IH].
Qed.

Lemma search_head_of id i bs :
  i ≠ UINT_MAX → search_head id (head_of i bs) = spec_search id bs.
Proof.
  intros Hi. destruct bs as [|x r]; [reflexivity|].
  rewrite search_head_occupied by exact Hi.
  apply (search_walk_chain id i (x :: r)).
Qed.

Lemma print_chain_of i l :
  i ≠ UINT_MAX →
  match chain_of i l with
  | Some n => print_chain n
  | None => []
  end = (λ b, (i, b)) <$> l.
Proof.
  intros Hi. induction l as [|x r IH]; simpl; [reflexivity|].
  destruct (Z.eqb_spec i UINT_MAX) as [|_]; [contradiction|].
  simpl. rewrite IH. reflexivity.
Qed.

Lemma print_head_of i bs :
  i ≠ UINT_MAX → print_chain (head_of i bs) = (λ b, (i, b)) <$> bs.
Proof.
  intros Hi. destruct bs as [|x r]; [reflexivity|].
  apply (print_chain_of i (x :: r) Hi).
Qed.

Lemma head_of_key i bs :
  key (head_of i bs) = UINT_MAX ∨ key (head_of i bs) = i.
Proof. destruct bs; [left|right]; reflexivity. Qed.

Lemma head_of_unoccupied i bs :
  i ≠ UINT_MAX → key (head_of i bs) = UINT_MAX → next (head_of i bs) = None.
Proof. intros Hi. destruct bs; [reflexivity|]. simpl. contradiction. Qed.

(** ** The document's list of records *)

Lemma spec_insert_ids_old b l :
  bidId b ∈ bidId <$> l → bidId <$> spec_insert b l = bidId <$> l.
Proof.
  induction l as [|x r IH]; simpl; intros Hin.
  - inversion Hin.
  - case_decide as Hx; simpl; [congruence|].
    f_equal. apply IH.
    apply elem_of_cons in Hin as [Hin|Hin]; [congruence|exact Hin].
Qed.

Lemma spec_insert_ids_new b l :
  bidId b ∉ bidId <$> l →
  bidId <$> spec_insert b l = ((bidId <$> l) ++ [bidId b])%list.
Proof.
  induction l as [|x r IH]; simpl; intros Hnin; [reflexivity|].
  apply not_elem_of_cons in Hnin as [Hne Hnin].
  rewrite decide_False by congruence. simpl. f_equal. apply IH, Hnin.
Qed.

Lemma spec_insert_NoDup b l :
  NoDup (bidId <$> l) → NoDup (bidId <$> spec_insert b l).
Proof.
  intros Hnd. destruct (decide (bidId b ∈ bidId <$> l)) as [Hin|Hnin].
  - rewrite spec_insert_ids_old by exact Hin. exact Hnd.
  - rewrite spec_insert_ids_new by exact Hnin.
    apply NoDup_app. split; [exact Hnd|]. split.
    + intros id Hid Hid'. apply list_elem_of_singleton in Hid'. congruence.
    + apply NoDup_singleton.
Qed.

Lemma spec_insert_elem b l : b ∈ spec_insert b l.
Proof.
  induction l as [|x r IH]; simpl.
  - apply list_elem_of_singleton. reflexivity.
  - case_decide; [left|right; exact IH].
Qed.

Lemma spec_insert_length_old b l :
  bidId b ∈ bidId <$> l → length (spec_insert b l) = length l.
Proof.
  intros Hin. rewrite <- (length_fmap bidId), spec_insert_ids_old by exact Hin.
  apply length_fmap.
Qed.

Lemma spec_remove_sublist id l : sublist (spec_remove id l) l.
Proof.
  induction l as [|x r IH]; simpl; [constructor|].
  case_decide; [apply sublist_cons, reflexivity|apply sublist_skip, IH].
Qed.

Lemma spec_remove_NoDup id l :
  NoDup (bidId <$> l) → NoDup (bidId <$> spec_remove id l).
Proof.
  intros Hnd. eapply sublist_NoDup; [exact Hnd|].
  apply fmap_sublist, spec_remove_sublist.
Qed.

Lemma spec_remove_absent id l :
  id ∉ bidId <$> l → spec_remove id l = l.
Proof.
  induction l as [|x r IH]; simpl; intros Hnin; [reflexivity|].
  apply not_elem_of_cons in Hnin as [Hne Hnin].
  rewrite decide_False by congruence. f_equal. apply IH, Hnin.
Qed.

Lemma spec_remove_ids id l :
  NoDup (bidId <$> l) → id ∉ bidId <$> spec_remove id l.
Proof.
  induction l as [|x r IH]; simpl; intros Hnd.
  - apply not_elem_of_nil.
  - apply NoDup_cons in Hnd as [Hx Hnd]. case_decide as Hid.
    + subst id. exact Hx.
    + simpl. apply not_elem_of_cons. split; [congruence|apply IH, Hnd].
Qed.

Lemma spec_remove_idem id l :
  NoDup (bidId <$> l) → spec_remove id (spec_remove id l) = spec_remove id l.
Proof. intros Hnd. apply spec_remove_absent, spec_remove_ids, Hnd. Qed.

Lemma spec_remove_elem_ne a x l :
  x ∈ l → bidId x ≠ a → x ∈ spec_remove a l.
Proof.
  induction l as [|y r IH]; simpl; intros Hin Hne; [inversion Hin|].
  apply elem_of_cons in Hin as [->|Hin].
  - rewrite decide_False by exact Hne. left.
  - case_decide; [exact Hin|right; apply IH; assumption].
Qed.

Lemma spec_search_absent id l :
  id ∉ bidId <$> l → spec_search id l = Bid_default.
Proof.
  induction l as [|x r IH]; simpl; intros Hnin; [reflexivity|].
  apply not_elem_of_cons in Hnin as [Hne Hnin].
  rewrite decide_False by congruence. apply IH, Hnin.
Qed.

Lemma spec_search_elem x l :
  NoDup (bidId <$> l) → x ∈ l → spec_search (bidId x) l = x.
Proof.
  induction l as [|y r IH]; simpl; intros Hnd Hin; [inversion Hin|].
  apply NoDup_cons in Hnd as [Hy Hnd].
  apply elem_of_cons in Hin as [->|Hin].
  - rewrite decide_True by reflexivity. reflexivity.
  - case_decide as Hid; [|apply IH; assumption].
    exfalso. apply Hy. rewrite Hid. apply list_elem_of_fmap_2, Hin.
Qed.

Lemma spec_search_bucket ts id l :
  spec_search id (bucket_bids ts (bucket_of ts id) l) = spec_search id l.
Proof.
  unfold bucket_bids. induction l as [|x r IH]; [reflexivity|].
  rewrite filter_cons. simpl. destruct (decide (bidId x = id)) as [Hx|Hx].
  - rewrite decide_True by (rewrite Hx; reflexivity). simpl.
    rewrite decide_True by exact Hx. reflexivity.
  - case_decide; simpl; [rewrite decide_False by exact Hx|]; exact IH.
Qed.

Lemma bucket_bids_insert ts i b l :
  bucket_bids ts i (spec_insert b l)
  = if decide (bucket_of ts (bidId b) = i)
    then spec_insert b (bucket_bids ts i l)
    else bucket_bids ts i l.
Proof.
  unfold bucket_bids. induction l as [|x r IH]; simpl.
  - rewrite filter_cons, filter_nil. reflexivity.
  - destruct (decide (bidId x = bidId b)) as [Hx|Hx].
    + rewrite !filter_cons, Hx.
      destruct (decide (bucket_of ts (bidId b) = i)); [|reflexivity].
      simpl. rewrite decide_True by exact Hx. reflexivity.
    + rewrite !filter_cons, IH.
      destruct (decide (bucket_of ts (bidId x) = i));
        destruct (decide (bucket_of ts (bidId b) = i)); try reflexivity.
      simpl. rewrite decide_False by exact Hx. reflexivity.
Qed.

Lemma bucket_bids_remove ts i id l :
  bucket_bids ts i (spec_remove id l)
  = if decide (bucket_of ts id = i)
    then spec_remove id (bucket_bids ts i l)
    else bucket_bids ts i l.
Proof.
  unfold bucket_bids. induction l as [|x r IH]; simpl.
  - rewrite filter_nil. case_decide; reflexivity.
  - destruct (decide (bidId x = id)) as [Hx|Hx].
    + rewrite !filter_cons, Hx.
      destruct (decide (bucket_of ts id = i)); [|reflexivity].
      simpl. rewrite decide_True by exact Hx. reflexivity.
    + rewrite !filter_cons, IH.
      destruct (decide (bucket_of ts (bidId x) = i));
        destruct (decide (bucket_of ts id = i)); try reflexivity.
      simpl. rewrite decide_False by exact Hx. reflexivity.
Qed.

(** ** The representation invariant *)

Lemma represents_new size :
  0 ≤ size ≤ UINT_MAX → represents (HashTable_new size) [].
Proof.
  intros Hsize. split; [apply well_formed_new, Hsize|].
  split; [apply NoDup_nil_2|].
  intros i head Hi. unfold HashTable_new in Hi. simpl in Hi.
  apply lookup_replicate_1 in Hi as [-> _]. reflexivity.
Qed.

(** Rewriting one head slot: the new table represents [l'] as soon as the
    addressed bucket holds its part of [l'] and the other buckets' parts
    are those of [l]. *)
Lemma represents_set_head t l l' k g head :
  represents t l →
  NoDup (bidId <$> l') →
  (∀ j, j ≠ bucket_of (tableSize t) k →
        bucket_bids (tableSize t) j l' = bucket_bids (tableSize t) j l) →
  g (head_of (bucket_of (tableSize t) k)
             (bucket_bids (tableSize t) (bucket_of (tableSize t) k) l))
  = head_of (bucket_of (tableSize t) k)
            (bucket_bids (tableSize t) (bucket_of (tableSize t) k) l') →
  nodes t !! Z.to_nat (bucket_of (tableSize t) k) = Some head →
  represents
    (mkHashTable (<[Z.to_nat (bucket_of (tableSize t) k) := g head]> (nodes t))
                 (tableSize t)) l'.
Proof.
  intros (Hwf & Hnd & Hlay) Hnd' Hothers Hbucket Hhead.
  pose proof (bucket_of_range (tableSize t) k (proj1 Hwf)) as Hrange.
  split; [apply well_formed_set_head, Hwf|]. split; [exact Hnd'|].
  intros j hd Hj. simpl in *.
  destruct (decide (Z.to_nat (bucket_of (tableSize t) k) = j)) as [<-|Hne].
  - rewrite list_lookup_insert_eq in Hj by (eapply lookup_lt_Some, Hhead).
    injection Hj as <-. apply Hlay in Hhead.
    rewrite Z2Nat.id in * by lia. rewrite Hhead. exact Hbucket.
  - rewrite list_lookup_insert_ne in Hj by exact Hne.
    rewrite Hothers by lia. apply Hlay, Hj.
Qed.

Lemma represents_Insert b t l :
  represents t l →
  ∃ t', Insert b t = Some t'
        ∧ represents t' (spec_insert b l)
        ∧ tableSize t' = tableSize t.
Proof.
  intros Hrep. pose proof Hrep as (Hwf & Hnd & _).
  destruct (Insert_well_formed b t Hwf) as (head & Hhead & ->).
  eexists. split; [reflexivity|]. split; [|reflexivity].
  apply (represents_set_head t l (spec_insert b l) (bidId b)
           (insert_head b (bucket_of (tableSize t) (bidId b))) head Hrep).
  - apply spec_insert_NoDup, Hnd.
  - intros j Hj. rewrite bucket_bids_insert.
    rewrite decide_False by congruence. reflexivity.
  - rewrite insert_head_of by apply bucket_of_not_marker, Hwf.
    rewrite bucket_bids_insert, decide_True by reflexivity. reflexivity.
  - exact Hhead.
Qed.

Lemma represents_Remove id t l :
  represents t l →
  ∃ t', Remove id t = Some t'
        ∧ represents t' (spec_remove id l)
        ∧ tableSize t' = tableSize t.
Proof.
  intros Hrep. pose proof Hrep as (Hwf & Hnd & _).
  destruct (Remove_well_formed id t Hwf) as (head & Hhead & ->).
  eexists. split; [reflexivity|]. split; [|reflexivity].
  apply (represents_set_head t l (spec_remove id l) id
           (remove_head id) head Hrep).
  - apply spec_remove_NoDup, Hnd.
  - intros j Hj. rewrite bucket_bids_remove.
    rewrite decide_False by congruence. reflexivity.
  - rewrite remove_head_of by apply bucket_of_not_marker, Hwf.
    rewrite bucket_bids_remove, decide_True by reflexivity. reflexivity.
  - exact Hhead.
Qed.

Lemma represents_step o t l :
  represents t l →
  ∃ t', step o t = Some t'
        ∧ represents t' (spec_step o l)
        ∧ tableSize t' = tableSize t.
Proof.
  destruct o; [apply represents_Insert|apply represents_Remove].
Qed.

Lemma represents_run ops t l :
  represents t l →
  ∃ t', run ops t = Some t'
        ∧ represents t' (spec_run ops l)
        ∧ tableSize t' = tableSize t.
Proof.
  revert t l. induction ops as [|o ops IH]; intros t l Hrep.
  - exists t. repeat split; try reflexivity; apply Hrep.
  - destruct (represents_step o t l Hrep) as (t1 & Hstep & Hrep1 & Hts1).
    destruct (IH t1 _ Hrep1) as (t2 & Hrun & Hrep2 & Hts2).
    exists t2. simpl. rewrite Hstep. simpl.
    split; [exact Hrun|]. split; [exact Hrep2|congruence].
Qed.

Lemma represents_constructed t0 :
  constructed t0 → represents t0 [].
Proof.
  intros [->|(size & Hsize & ->)].
  - rewrite HashTable_default_new. apply represents_new. unfold UINT_MAX. lia.
  - apply represents_new, Hsize.
Qed.

Lemma reachable_represents t :
  reachable t → ∃ l, represents t l.
Proof.
  intros (t0 & ops & Ht0 & Hrun).
  destruct (represents_run ops _ _ (represents_constructed t0 Ht0))
    as (t' & Hrun' & Hrep & _).
  exists (spec_run ops []). congruence.
Qed.

(** A table is determined by its size and the list it represents. *)
Lemma represents_inj t t' l :
  represents t l → represents t' l → tableSize t = tableSize t' → t = t'.
Proof.
  intros ([_ Hlen] & _ & Hlay) ([_ Hlen'] & _ & Hlay') Hts.
  destruct t as [ns ts], t' as [ns' ts']; simpl in *. subst ts'.
  f_equal. apply list_eq_same_length with (Z.to_nat ts); try assumption.
  intros i x y _ Hx Hy. rewrite (Hlay _ _ Hx), (Hlay' _ _ Hy). reflexivity.
Qed.

Lemma represents_Search id t l :
  represents t l → Search id t = Some (spec_search id l).
Proof.
  intros (Hwf & Hnd & Hlay).
  destruct (Search_well_formed id t Hwf) as (head & Hhead & ->).
  pose proof (bucket_of_range (tableSize t) id (proj1 Hwf)) as Hrange.
  apply Hlay in Hhead. rewrite Z2Nat.id in Hhead by lia.
  rewrite Hhead, search_head_of by apply bucket_of_not_marker, Hwf.
  rewrite spec_search_bucket. reflexivity.
Qed.

(** ** Enumeration *)

Lemma print_buckets t l idxs :
  represents t l →
  Forall (λ i, 0 ≤ i < tableSize t) idxs →
  mapM (λ i : Z, print_chain <$> nodes t !! Z.to_nat i) idxs
  = Some ((λ i, (λ b, (i, b)) <$> bucket_bids (tableSize t) i l) <$> idxs).
Proof.
  intros (Hwf & Hnd & Hlay) Hidx.
  induction Hidx as [|i idxs Hi _ IH]; [reflexivity|].
  destruct Hwf as [Hts Hlen].
  destruct (lookup_lt_is_Some_2 (nodes t) (Z.to_nat i)) as [head Hhead];
    [lia|].
  cbn [mapM fmap list_fmap]. rewrite Hhead, IH. simpl.
  apply Hlay in Hhead. rewrite Z2Nat.id in Hhead by lia.
  rewrite Hhead, print_head_of by (unfold UINT_MAX in *; lia).
  reflexivity.
Qed.

Lemma concat_fmap_bind {A B} (f : A → list B) (l : list A) :
  concat (f <$> l) = l ≫= f.
Proof.
  induction l as [|x l IH]; [reflexivity|].
  rewrite bind_cons, <- IH. reflexivity.
Qed.

Lemma represents_PrintAll t l :
  represents t l → PrintAll t = Some (spec_enumerate (tableSize t) l).
Proof.
  intros Hrep. unfold PrintAll.
  rewrite (print_buckets t l) by
    (try exact Hrep; apply Forall_seqZ; intros; lia).
  simpl. rewrite concat_fmap_bind. reflexivity.
Qed.

Lemma elem_of_spec_enumerate ts l i b :
  0 < ts ≤ UINT_MAX →
  (i, b) ∈ spec_enumerate ts l ↔ b ∈ l ∧ i = bucket_of ts (bidId b).
Proof.
  intros Hts. unfold spec_enumerate, bucket_bids.
  rewrite list_elem_of_bind. split.
  - intros (j & Hin & _). apply list_elem_of_fmap in Hin as (b' & Heq & Hin).
    injection Heq as -> ->. apply list_elem_of_filter in Hin as [Hb Hin].
    split; [exact Hin|congruence].
  - intros [Hin ->]. exists (bucket_of ts (bidId b)). split.
    + apply list_elem_of_fmap. exists b. split; [reflexivity|].
      apply list_elem_of_filter. split; [reflexivity|exact Hin].
    + apply elem_of_seqZ. pose proof (bucket_of_range ts (bidId b) Hts). lia.
Qed.

Lemma NoDup_spec_enumerate ts l :
  NoDup l → NoDup (spec_enumerate ts l).
Proof.
  intros Hnd. unfold spec_enumerate. apply NoDup_bind.
  - intros i j line _ _ Hi Hj.
    apply list_elem_of_fmap in Hi as (? & -> & _).
    apply list_elem_of_fmap in Hj as (? & [= -> _] & _). reflexivity.
  - intros i _. apply NoDup_fmap_2; [intros ?? [= ->]; reflexivity|].
    apply NoDup_filter, Hnd.
  - apply NoDup_seqZ.
Qed.

Lemma spec_enumerate_ids_inj ts l x y :
  0 < ts ≤ UINT_MAX →
  NoDup (bidId <$> l) →
  x ∈ spec_enumerate ts l → y ∈ spec_enumerate ts l →
  bidId x.2 = bidId y.2 → x = y.
Proof.
  intros Hts Hnd Hx Hy Hid. destruct x as [i a], y as [j b]; simpl in *.
  apply elem_of_spec_enumerate in Hx as [Ha ->]; [|exact Hts].
  apply elem_of_spec_enumerate in Hy as [Hb ->]; [|exact Hts].
  rewrite <- (spec_search_elem a l Hnd Ha), Hid.
  rewrite (spec_search_elem b l Hnd Hb). reflexivity.
Qed.

Lemma NoDup_printed_ids ts l :
  0 < ts ≤ UINT_MAX →
  NoDup (bidId <$> l) → NoDup (printed_ids (spec_enumerate ts l)).
Proof.
  intros Hts Hnd. unfold printed_ids. apply NoDup_fmap_2_strong.
  - intros x y. apply spec_enumerate_ids_inj; assumption.
  - apply NoDup_spec_enumerate. eapply NoDup_fmap_1, Hnd.
Qed.

Lemma spec_enumerate_perm ts l :
  0 < ts ≤ UINT_MAX →
  NoDup (bidId <$> l) → (spec_enumerate ts l).*2 ≡ₚ l.
Proof.
  intros Hts Hnd. apply NoDup_Permutation.
  - apply NoDup_fmap_2_strong.
    + intros x y Hx Hy Hxy. eapply spec_enumerate_ids_inj; eauto.
      congruence.
    + apply NoDup_spec_enumerate. eapply NoDup_fmap_1, Hnd.
  - eapply NoDup_fmap_1, Hnd.
  - intros b. rewrite list_elem_of_fmap. split.
    + intros ([i b'] & -> & Hin). simpl.
      apply elem_of_spec_enumerate in Hin as [Hin _]; assumption.
    + intros Hin. exists (bucket_of ts (bidId b), b). split; [reflexivity|].
      apply elem_of_spec_enumerate; [exact Hts|]. split; [exact Hin|reflexivity].
Qed.

Lemma printed_ids_spec_enumerate ts l id :
  0 < ts ≤ UINT_MAX →
  NoDup (bidId <$> l) →
  id ∈ printed_ids (spec_enumerate ts l) ↔ id ∈ bidId <$> l.
Proof.
  intros Hts Hnd. unfold printed_ids.
  rewrite <- (spec_enumerate_perm ts l Hts Hnd) at 2.
  rewrite <- list_fmap_compose. reflexivity.
Qed.

(** In a list with distinct identifiers, the lines carrying the identifier
    of a line [x] are [x] alone. *)
Lemma filter_same_id (out : list (Z * Bid)) x :
  NoDup (printed_ids out) → x ∈ out →
  filter (λ line, bidId line.2 = bidId x.2) out = [x].
Proof.
  unfold printed_ids. induction out as [|y r IH]; simpl; intros Hnd Hin.
  - inversion Hin.
  - apply NoDup_cons in Hnd as [Hy Hnd]. rewrite filter_cons.
    apply elem_of_cons in Hin as [->|Hin].
    + rewrite decide_True by reflexivity. f_equal.
      clear IH Hnd. induction r as [|z r IH]; [reflexivity|].
      simpl in Hy. apply not_elem_of_cons in Hy as [Hz Hy].
      rewrite filter_cons, decide_False by congruence. apply IH, Hy.
    + rewrite decide_False; [apply IH; assumption|].
      intros Heq. apply Hy. rewrite Heq.
      apply (list_elem_of_fmap_2 (λ line, bidId line.2)), Hin.
Qed.

(** * The properties of the design document *)

(** C1 (round-trip).  In every table state whose array accesses are defined
    (a non-zero size, one head node per bucket), [Insert R] followed by
    [Search (bidId R)] succeeds and returns [R] itself: the same [bidId],
    [title], [fund] and [amount].  The identifier need not even be
    non-empty. *)
Theorem Insert_Search_round_trip (R : Bid) (t : HashTable) :
  well_formed t →
  ∃ t', Insert R t = Some t' ∧ Search (bidId R) t' = Some R.
Proof.
  intros Hwf. destruct (Insert_well_formed R t Hwf) as (head & Hhead & HI).
  eexists. split; [exact HI|].
  pose proof (well_formed_set_head t
    (Z.to_nat (bucket_of (tableSize t) (bidId R)))
    (insert_head R (bucket_of (tableSize t) (bidId R)) head) Hwf) as Hwf'.
  destruct (Search_well_formed (bidId R) _ Hwf') as (head' & Hhead' & ->).
  simpl in Hhead'.
  rewrite list_lookup_insert_eq in Hhead' by (eapply lookup_lt_Some, Hhead).
  injection Hhead' as <-. f_equal.
  apply search_insert_head, bucket_of_not_marker, Hwf.
Qed.

(** C2 (update, not duplicate).  In a reachable table, inserting [R1] and
    then [R2] with the same identifier leaves exactly one printed line with
    that identifier, the line of [R2], and [PrintAll] prints as many lines
    after the second insert as after the first. *)
Theorem Insert_same_id_updates (R1 R2 : Bid) (t : HashTable) :
  reachable t →
  bidId R1 = bidId R2 →
  ∃ t1 t2 out1 out2,
    Insert R1 t = Some t1
    ∧ Insert R2 t1 = Some t2
    ∧ PrintAll t1 = Some out1
    ∧ PrintAll t2 = Some out2
    ∧ filter (λ line, bidId line.2 = bidId R2) out2
      = [(bucket_of (tableSize t) (bidId R2), R2)]
    ∧ length out2 = length out1.
Proof.
  intros Hreach Hid. destruct (reachable_represents t Hreach) as [l Hrep].
  destruct (represents_Insert R1 t l Hrep) as (t1 & HI1 & Hrep1 & Hts1).
  destruct (represents_Insert R2 t1 _ Hrep1) as (t2 & HI2 & Hrep2 & Hts2).
  pose proof Hrep1 as ([Hts _] & Hnd1 & _). pose proof Hrep2 as (_ & Hnd2 & _).
  exists t1, t2. do 2 eexists.
  split; [exact HI1|]. split; [exact HI2|].
  split; [apply represents_PrintAll, Hrep1|].
  split; [apply represents_PrintAll, Hrep2|].
  rewrite Hts2, Hts1 in *. split.
  - apply (filter_same_id _ (bucket_of (tableSize t) (bidId R2), R2)).
    + apply NoDup_printed_ids; assumption.
    + apply elem_of_spec_enumerate; [exact Hts|].
      split; [apply spec_insert_elem|reflexivity].
  - rewrite <- (length_fmap snd), <- (length_fmap snd _).
    rewrite !spec_enumerate_perm by assumption.
    apply spec_insert_length_old. rewrite <- Hid.
    apply list_elem_of_fmap_2, spec_insert_elem.
Qed.

(** C3 (collision independence).  In a reachable table, let [Ra] and [Rb]
    be printed records with different identifiers, whatever their buckets
    (nothing is assumed about their hashes, so they may share one).  Then
    [Search] returns each of them, and after [Remove (bidId Ra)] the search
    for [Rb] still returns [Rb] while the search for [Ra] returns the
    default bid. *)
Theorem Search_Remove_independent
    (t : HashTable) (out : list (Z * Bid)) (ka kb : Z) (Ra Rb : Bid) :
  reachable t →
  PrintAll t = Some out →
  (ka, Ra) ∈ out →
  (kb, Rb) ∈ out →
  bidId Ra ≠ bidId Rb →
  Search (bidId Ra) t = Some Ra
  ∧ Search (bidId Rb) t = Some Rb
  ∧ ∃ t', Remove (bidId Ra) t = Some t'
          ∧ Search (bidId Rb) t' = Some Rb
          ∧ Search (bidId Ra) t' = Some Bid_default.
Proof.
  intros Hreach Hout Ha Hb Hne.
  destruct (reachable_represents t Hreach) as [l Hrep].
  pose proof Hrep as ([Hts _] & Hnd & _).
  rewrite (represents_PrintAll t l Hrep) in Hout. injection Hout as <-.
  apply elem_of_spec_enumerate in Ha as [Ha _]; [|exact Hts].
  apply elem_of_spec_enumerate in Hb as [Hb _]; [|exact Hts].
  destruct (represents_Remove (bidId Ra) t l Hrep) as (t' & HR & Hrep' & _).
  rewrite !(represents_Search _ t l Hrep).
  rewrite !spec_search_elem by assumption.
  split; [reflexivity|]. split; [reflexivity|].
  exists t'. split; [exact HR|].
  rewrite !(represents_Search _ t' _ Hrep'). split; f_equal.
  - apply spec_search_elem; [apply spec_remove_NoDup, Hnd|].
    apply spec_remove_elem_ne; [exact Hb|congruence].
  - apply spec_search_absent, spec_remove_ids, Hnd.
Qed.

(** C4 (enumeration completeness and order).  After any sequence of
    [Insert] and [Remove] calls on a freshly constructed table, the table is in the
    standard layout for the records the design document says are present
    ([spec_run ops []], in insertion order): each bucket's first record sits
    in the head slot, the later ones follow in the chain, an empty bucket is
    an unoccupied head.  [PrintAll] prints these records and no others,
    no identifier twice, bucket after bucket in ascending index order and
    inside a bucket in insertion order. *)
Theorem PrintAll_enumerates (t0 : HashTable) (ops : list Op) :
  constructed t0 →
  ∃ t out,
    run ops t0 = Some t
    ∧ PrintAll t = Some out
    ∧ represents t (spec_run ops [])
    ∧ out.*2 ≡ₚ spec_run ops []
    ∧ NoDup (printed_ids out)
    ∧ out = spec_enumerate (tableSize t) (spec_run ops []).
Proof.
  intros Ht0.
  destruct (represents_run ops _ _ (represents_constructed t0 Ht0))
    as (t & Hrun & Hrep & _).
  pose proof Hrep as ([Hts _] & Hnd & _).
  exists t, (spec_enumerate (tableSize t) (spec_run ops [])).
  split; [exact Hrun|]. split; [apply represents_PrintAll, Hrep|].
  split; [exact Hrep|]. split; [apply spec_enumerate_perm; assumption|].
  split; [apply NoDup_printed_ids; assumption|reflexivity].
Qed.

(** C5 (occupied head key).  In every table reachable from a constructor by
    [Insert] and [Remove] calls, a head slot whose key is not [UINT_MAX] has
    its own array index as key.  In particular the head that [Remove]
    leaves in a slot, also when it promotes the first overflow node, is
    unoccupied or carries the index of the slot. *)
Theorem occupied_head_key (t : HashTable) (i : nat) (head : Node) :
  reachable t →
  nodes t !! i = Some head →
  (key head ≠ UINT_MAX → key head = Z.of_nat i)
  ∧ (∀ id, key (remove_head id head) ≠ UINT_MAX →
           key (remove_head id head) = Z.of_nat i).
Proof.
  intros Hreach Hhead.
  destruct (reachable_represents t Hreach) as (l & [Hts Hlen] & _ & Hlay).
  rewrite (Hlay i head Hhead). apply lookup_lt_Some in Hhead. split.
  - intros Hk. destruct (head_of_key (Z.of_nat i)
      (bucket_bids (tableSize t) (Z.of_nat i) l)); [contradiction|assumption].
  - intros id Hk. rewrite remove_head_of in * by (unfold UINT_MAX in *; lia).
    destruct (head_of_key (Z.of_nat i)
      (spec_remove id (bucket_bids (tableSize t) (Z.of_nat i) l)));
      [contradiction|assumption].
Qed.

(** C6 (remove idempotence).  In every reachable table, a second
    [Remove id] leaves the state reached by the first one unchanged, and
    [Remove] of an identifier that is on no printed line leaves the state
    unchanged. *)
Theorem Remove_idempotent (id : string) (t : HashTable) :
  reachable t →
  (∃ t1, Remove id t = Some t1 ∧ Remove id t1 = Some t1)
  ∧ (∀ out, PrintAll t = Some out → id ∉ printed_ids out →
            Remove id t = Some t).
Proof.
  intros Hreach. destruct (reachable_represents t Hreach) as [l Hrep].
  pose proof Hrep as ([Hts _] & Hnd & _).
  destruct (represents_Remove id t l Hrep) as (t1 & HR1 & Hrep1 & Hts1).
  destruct (represents_Remove id t1 _ Hrep1) as (t2 & HR2 & Hrep2 & Hts2).
  split.
  - exists t1. split; [exact HR1|]. rewrite HR2. f_equal.
    rewrite spec_remove_idem in Hrep2 by exact Hnd.
    apply (represents_inj t2 t1 _ Hrep2 Hrep1 Hts2).
  - intros out Hout Hnin. rewrite HR1. f_equal.
    rewrite (represents_PrintAll t l Hrep) in Hout. injection Hout as <-.
    rewrite printed_ids_spec_enumerate in Hnin by assumption.
    rewrite spec_remove_absent in Hrep1 by exact Hnin.
    apply (represents_inj t1 t l Hrep1 Hrep Hts1).
Qed.

(** C7 (a miss is a value).  In every reachable table [Search] returns a
    bid for every identifier, and for an identifier that is on no printed
    line it returns the default bid, whose identifier, title and fund are
    empty and whose amount is [0.0]. *)
Theorem Search_miss_is_sentinel (id : string) (t : HashTable) :
  reachable t →
  (∃ r, Search id t = Some r)
  ∧ (∀ out, PrintAll t = Some out → id ∉ printed_ids out →
            Search id t = Some Bid_default)
  ∧ Bid_default = mkBid "" "" "" (S754_zero false).
Proof.
  intros Hreach. destruct (reachable_represents t Hreach) as [l Hrep].
  pose proof Hrep as ([Hts _] & Hnd & _).
  rewrite (represents_Search id t l Hrep).
  split; [eexists; reflexivity|]. split; [|reflexivity].
  intros out Hout Hnin.
  rewrite (represents_PrintAll t l Hrep) in Hout. injection Hout as <-.
  rewrite printed_ids_spec_enumerate in Hnin by assumption.
  rewrite spec_search_absent by exact Hnin. reflexivity.
Qed.

(** C8 (remove frame).  [Remove id] on a well-formed table succeeds, keeps
    the table size and the number of head slots, and leaves the head slot
    (with the chain it owns) of every index other than [hash id] exactly as
    it was. *)
Theorem Remove_frame (id : string) (t : HashTable) :
  well_formed t →
  ∃ i t',
    hash t id = Some i
    ∧ Remove id t = Some t'
    ∧ tableSize t' = tableSize t
    ∧ length (nodes t') = length (nodes t)
    ∧ ∀ j : nat, j ≠ Z.to_nat i → nodes t' !! j = nodes t !! j.
Proof.
  intros Hwf. destruct (Remove_well_formed id t Hwf) as (head & Hhead & HR).
  eexists _, _. split; [apply hash_well_formed, Hwf|].
  split; [exact HR|]. simpl. split; [reflexivity|].
  split; [apply length_insert|].
  intros j Hj. apply list_lookup_insert_ne. congruence.
Qed.

(** C9 (empty identifiers are tolerated).  In a reachable table, [Insert]
    of a record [R] with an empty identifier succeeds, [R] is printed by
    [PrintAll] like any other record, and [Search ""] returns [R]; the test
    that [main] applies to a search result answers "not found" for [R] as it
    does for the default bid. *)
Theorem Insert_empty_id_tolerated (R : Bid) (t : HashTable) :
  reachable t →
  bidId R = "" →
  ∃ t' out,
    Insert R t = Some t'
    ∧ PrintAll t' = Some out
    ∧ R ∈ out.*2
    ∧ Search "" t' = Some R
    ∧ bid_found R = false
    ∧ bid_found Bid_default = false.
Proof.
  intros Hreach Hid. destruct (reachable_represents t Hreach) as [l Hrep].
  destruct (represents_Insert R t l Hrep) as (t' & HI & Hrep' & Hts').
  pose proof Hrep' as ([Hts _] & Hnd & _).
  exists t'. eexists. split; [exact HI|].
  split; [apply represents_PrintAll, Hrep'|].
  split; [rewrite spec_enumerate_perm by assumption; apply spec_insert_elem|].
  split.
  - rewrite (represents_Search _ t' _ Hrep'), <- Hid. f_equal.
    apply spec_search_elem; [exact Hnd|apply spec_insert_elem].
  - unfold bid_found. rewrite Hid. split; reflexivity.
Qed.

(** C10 (an unoccupied head has no chain).  In every reachable table, a head
    slot whose key is [UINT_MAX] has a null [next] pointer.  Hence the
    branch of [Insert] that occupies such a head and resets [next] drops no
    node, and [Remove] leaves such a head as it is. *)
Theorem unoccupied_head_no_chain (t : HashTable) (i : nat) (head : Node) :
  reachable t →
  nodes t !! i = Some head →
  key head = UINT_MAX →
  next head = None
  ∧ (∀ b k, insert_head b k head = mkNode b k (next head))
  ∧ (∀ id, remove_head id head = head).
Proof.
  intros Hreach Hhead Hk.
  destruct (reachable_represents t Hreach) as (l & [Hts Hlen] & _ & Hlay).
  assert (next head = None) as Hnext.
  { rewrite (Hlay i head Hhead) in *.
    apply lookup_lt_Some in Hhead.
    apply (head_of_unoccupied (Z.of_nat i)); [|exact Hk].
    unfold UINT_MAX in *. lia. }
  split; [exact Hnext|]. split.
  - intros b k. unfold insert_head. rewrite Hk, Hnext. reflexivity.
  - intros id. unfold remove_head. rewrite Hk, Hnext. reflexivity.
Qed.

End Proofs.

(** * The properties on the worked examples

    Each statement instantiates one of the theorems above with the hash
    [code_sum] and a table of size 5 in which ["A"] and ["F"] share
    bucket 0. *)

Example HashTable_new_zero : tableSize (HashTable_new 0) = 179.
Proof. reflexivity. Qed.

Example PrintAll_table_AFB : PrintAll table_AFB = Some out_AFB.
Proof. reflexivity. Qed.

(** Removing the head of bucket 0 promotes the overflow node of ["F"]. *)
Example Remove_promotes :
  nodes table_AFB_rmA !! 0%nat = Some (mkNode bid_F 0 None).
Proof. reflexivity. Qed.

Example Search_after_promotion :
  @Search code_sum "F" table_AFB_rmA = Some bid_F
  ∧ @Search code_sum "A" table_AFB_rmA = Some Bid_default.
Proof. split; reflexivity. Qed.

Lemma Insert_Search_round_trip_witness :
  well_formed table_AFB
  ∧ ∃ t', @Insert code_sum bid_A2 table_AFB = Some t'
          ∧ @Search code_sum "A" t' = Some bid_A2.
Proof.
  split; [evaluate|].
  apply (@Insert_Search_round_trip code_sum bid_A2 table_AFB). evaluate.
Defined.

Lemma Insert_same_id_updates_witness :
  @reachable code_sum (HashTable_new 5)
  ∧ bidId bid_A = bidId bid_A2
  ∧ ∃ t1 t2 out1 out2,
      @Insert code_sum bid_A (HashTable_new 5) = Some t1
      ∧ @Insert code_sum bid_A2 t1 = Some t2
      ∧ PrintAll t1 = Some out1
      ∧ PrintAll t2 = Some out2
      ∧ filter (λ line, bidId line.2 = "A") out2 = [(0, bid_A2)]
      ∧ length out2 = length out1.
Proof.
  split; [reached_by 5 (@nil Op)|]. split; [reflexivity|].
  apply (@Insert_same_id_updates code_sum bid_A bid_A2 (HashTable_new 5)).
  - reached_by 5 (@nil Op).
  - reflexivity.
Defined.

Lemma Search_Remove_independent_witness :
  @reachable code_sum table_AFB
  ∧ PrintAll table_AFB = Some out_AFB
  ∧ @bucket_of code_sum 5 "A" = @bucket_of code_sum 5 "F"
  ∧ @Search code_sum "A" table_AFB = Some bid_A
  ∧ @Search code_sum "F" table_AFB = Some bid_F
  ∧ ∃ t', @Remove code_sum "A" table_AFB = Some t'
          ∧ @Search code_sum "F" t' = Some bid_F
          ∧ @Search code_sum "A" t' = Some Bid_default.
Proof.
  split; [reached_by 5 ops_AFB|]. split; [reflexivity|].
  split; [reflexivity|].
  apply (@Search_Remove_independent code_sum table_AFB out_AFB 0 0 bid_A bid_F).
  - reached_by 5 ops_AFB.
  - reflexivity.
  - left.
  - right. left.
  - discriminate.
Defined.

Lemma PrintAll_enumerates_witness :
  constructed (HashTable_new 5)
  ∧ ∃ t out,
      @run code_sum ops_AFB_rmA (HashTable_new 5) = Some t
      ∧ PrintAll t = Some out
      ∧ @represents code_sum t (spec_run ops_AFB_rmA [])
      ∧ out.*2 ≡ₚ spec_run ops_AFB_rmA []
      ∧ NoDup (printed_ids out)
      ∧ out = @spec_enumerate code_sum (tableSize t) (spec_run ops_AFB_rmA []).
Proof.
  split; [right; exists 5; evaluate|].
  apply (@PrintAll_enumerates code_sum (HashTable_new 5) ops_AFB_rmA).
  right. exists 5. evaluate.
Defined.

Lemma occupied_head_key_witness :
  @reachable code_sum table_AFB
  ∧ nodes table_AFB !! 0%nat = Some head_AF
  ∧ key head_AF = 0
  ∧ remove_head "A" head_AF = mkNode bid_F 0 None
  ∧ key (remove_head "A" head_AF) = 0.
Proof.
  split; [reached_by 5 ops_AFB|]. split; [reflexivity|].
  pose proof (@occupied_head_key code_sum table_AFB 0%nat head_AF
                ltac:(reached_by 5 ops_AFB) eq_refl) as [Hkey Hpromoted].
  split; [apply Hkey; discriminate|]. split; [reflexivity|].
  apply (Hpromoted "A"). discriminate.
Defined.

Lemma Remove_idempotent_witness :
  @reachable code_sum table_AFB
  ∧ (∃ t1, @Remove code_sum "A" table_AFB = Some t1
           ∧ @Remove code_sum "A" t1 = Some t1)
  ∧ @Remove code_sum "Z" table_AFB = Some table_AFB.
Proof.
  split; [reached_by 5 ops_AFB|]. split.
  - apply (@Remove_idempotent code_sum "A" table_AFB). reached_by 5 ops_AFB.
  - apply (proj2 (@Remove_idempotent code_sum "Z" table_AFB
                    ltac:(reached_by 5 ops_AFB)) out_AFB); [reflexivity|].
    exact (bool_decide_eq_false_1 ("Z" ∈ printed_ids out_AFB) eq_refl).
Defined.

Lemma Search_miss_is_sentinel_witness :
  @reachable code_sum table_AFB
  ∧ (∃ r, @Search code_sum "Z" table_AFB = Some r)
  ∧ @Search code_sum "Z" table_AFB = Some Bid_default.
Proof.
  split; [reached_by 5 ops_AFB|]. split.
  - apply (@Search_miss_is_sentinel code_sum "Z" table_AFB).
    reached_by 5 ops_AFB.
  - apply (proj1 (proj2 (@Search_miss_is_sentinel code_sum "Z" table_AFB
                           ltac:(reached_by 5 ops_AFB))) out_AFB);
      [reflexivity|].
    exact (bool_decide_eq_false_1 ("Z" ∈ printed_ids out_AFB) eq_refl).
Defined.

Lemma Remove_frame_witness :
  well_formed table_AFB
  ∧ ∃ i t',
      @hash code_sum table_AFB "A" = Some i
      ∧ @Remove code_sum "A" table_AFB = Some t'
      ∧ tableSize t' = tableSize table_AFB
      ∧ length (nodes t') = length (nodes table_AFB)
      ∧ ∀ j : nat, j ≠ Z.to_nat i → nodes t' !! j = nodes table_AFB !! j.
Proof.
  split; [evaluate|].
  apply (@Remove_frame code_sum "A" table_AFB). evaluate.
Defined.

Lemma Insert_empty_id_tolerated_witness :
  @reachable code_sum table_AFB
  ∧ bidId bid_empty = ""
  ∧ ∃ t' out,
      @Insert code_sum bid_empty table_AFB = Some t'
      ∧ PrintAll t' = Some out
      ∧ bid_empty ∈ out.*2
      ∧ @Search code_sum "" t' = Some bid_empty
      ∧ bid_found bid_empty = false
      ∧ bid_found Bid_default = false.
Proof.
  split; [reached_by 5 ops_AFB|]. split; [reflexivity|].
  apply (@Insert_empty_id_tolerated code_sum bid_empty table_AFB).
  - reached_by 5 ops_AFB.
  - reflexivity.
Defined.

Lemma unoccupied_head_no_chain_witness :
  @reachable code_sum table_AFB
  ∧ nodes table_AFB !! 2%nat = Some Node_default
  ∧ key Node_default = UINT_MAX
  ∧ next Node_default = None
  ∧ (∀ b k, insert_head b k Node_default = mkNode b k (next Node_default))
  ∧ (∀ id, remove_head id Node_default = Node_default).
Proof.
  split; [reached_by 5 ops_AFB|]. split; [reflexivity|].
  split; [reflexivity|].
  apply (@unoccupied_head_no_chain code_sum table_AFB 2%nat Node_default).
  - reached_by 5 ops_AFB.
  - reflexivity.
  - reflexivity.
Defined.

(** * Further properties of the operations *)

Section MoreProofs.
Context `{StdHash}.

(** ** More about the document's list *)

Lemma spec_search_insert_ne id b l :
  id ≠ bidId b → spec_search id (spec_insert b l) = spec_search id l.
Proof.
  intros Hne. induction l as [|x r IH]; simpl.
  - rewrite decide_False by congruence. reflexivity.
  - destruct (decide (bidId x = bidId b)) as [Hx|Hx]; simpl.
    + rewrite !decide_False by congruence. reflexivity.
    + case_decide; [reflexivity|exact IH].
Qed.

Lemma spec_search_remove_ne id id' l :
  id' ≠ id → spec_search id' (spec_remove id l) = spec_search id' l.
Proof.
  intros Hne. induction l as [|x r IH]; simpl; [reflexivity|].
  destruct (decide (bidId x = id)) as [Hx|Hx]; simpl.
  - rewrite decide_False by congruence. reflexivity.
  - case_decide; [reflexivity|exact IH].
Qed.

Lemma spec_search_cases id l :
  spec_search id l = Bid_default
  ∨ (spec_search id l ∈ l ∧ bidId (spec_search id l) = id).
Proof.
  induction l as [|x r IH]; simpl; [left; reflexivity|].
  case_decide as Hx.
  - right. split; [left|exact Hx].
  - destruct IH as [IH|[IH1 IH2]]; [left; exact IH|right].
    split; [right; exact IH1|exact IH2].
Qed.

Lemma spec_remove_insert_new b l :
  bidId b ∉ bidId <$> l → spec_remove (bidId b) (spec_insert b l) = l.
Proof.
  induction l as [|x r IH]; simpl; intros Hnin.
  - rewrite decide_True by reflexivity. reflexivity.
  - apply not_elem_of_cons in Hnin as [Hne Hnin].
    rewrite decide_False by congruence. simpl.
    rewrite decide_False by congruence. f_equal. apply IH, Hnin.
Qed.

Lemma spec_insert_insert_same a b l :
  bidId a = bidId b → spec_insert b (spec_insert a l) = spec_insert b l.
Proof.
  intros Hid. induction l as [|x r IH]; simpl.
  - rewrite decide_True by exact Hid. reflexivity.
  - destruct (decide (bidId x = bidId a)) as [Hx|Hx]; simpl.
    + rewrite decide_True by exact Hid.
      rewrite decide_True by congruence. reflexivity.
    + rewrite !decide_False by congruence. f_equal. exact IH.
Qed.

Lemma spec_remove_comm a b l :
  spec_remove a (spec_remove b l) = spec_remove b (spec_remove a l).
Proof.
  induction l as [|x r IH]; simpl; [reflexivity|].
  destruct (decide (bidId x = b)) as [Hb|Hb];
    destruct (decide (bidId x = a)) as [Ha|Ha]; simpl.
  - congruence.
  - rewrite decide_True by exact Hb. reflexivity.
  - rewrite decide_True by exact Ha. reflexivity.
  - rewrite decide_False by exact Ha. rewrite decide_False by exact Hb.
    f_equal. exact IH.
Qed.

Lemma filter_other_ids id (l : list Bid) :
  id ∉ bidId <$> l → filter (λ b, bidId b ≠ id) l = l.
Proof.
  induction l as [|x r IH]; simpl; intros Hnin; [reflexivity|].
  apply not_elem_of_cons in Hnin as [Hne Hnin].
  rewrite filter_cons_True by congruence. f_equal. apply IH, Hnin.
Qed.

Lemma spec_remove_filter id l :
  NoDup (bidId <$> l) → spec_remove id l = filter (λ b, bidId b ≠ id) l.
Proof.
  induction l as [|x r IH]; simpl; intros Hnd; [reflexivity|].
  apply NoDup_cons in Hnd as [Hx Hnd].
  destruct (decide (bidId x = id)) as [Hid|Hid].
  - rewrite filter_cons_False by (intros Hne; apply Hne, Hid).
    rewrite filter_other_ids by (rewrite <- Hid; exact Hx). reflexivity.
  - rewrite filter_cons_True by exact Hid. f_equal. apply IH, Hnd.
Qed.

Lemma spec_insert_new_filter b l :
  bidId b ∉ bidId <$> l →
  filter (λ x, bidId x ≠ bidId b) (spec_insert b l) = l.
Proof.
  induction l as [|x r IH]; simpl; intros Hnin.
  - rewrite filter_cons_False by (intros Hne; apply Hne; reflexivity).
    reflexivity.
  - apply not_elem_of_cons in Hnin as [Hne Hnin].
    rewrite decide_False by congruence.
    rewrite filter_cons_True by congruence. f_equal. apply IH, Hnin.
Qed.

Lemma fmap_other_ids b (l : list Bid) :
  bidId b ∉ bidId <$> l →
  (λ x, if decide (bidId x = bidId b) then b else x) <$> l = l.
Proof.
  induction l as [|x r IH]; simpl; intros Hnin; [reflexivity|].
  apply not_elem_of_cons in Hnin as [Hne Hnin].
  rewrite decide_False by congruence. f_equal. apply IH, Hnin.
Qed.

Lemma spec_insert_old_fmap b l :
  NoDup (bidId <$> l) → bidId b ∈ bidId <$> l →
  spec_insert b l = (λ x, if decide (bidId x = bidId b) then b else x) <$> l.
Proof.
  induction l as [|x r IH]; simpl; intros Hnd Hin; [inversion Hin|].
  apply NoDup_cons in Hnd as [Hx Hnd].
  destruct (decide (bidId x = bidId b)) as [Hid|Hid].
  - rewrite fmap_other_ids by (rewrite <- Hid; exact Hx). reflexivity.
  - f_equal. apply IH; [exact Hnd|].
    apply elem_of_cons in Hin as [Hin|Hin]; [congruence|exact Hin].
Qed.

Lemma spec_remove_length id l :
  id ∈ bidId <$> l → S (length (spec_remove id l)) = length l.
Proof.
  induction l as [|x r IH]; simpl; intros Hin; [inversion Hin|].
  case_decide as Hx; [reflexivity|]. simpl. f_equal. apply IH.
  apply elem_of_cons in Hin as [Hin|Hin]; [congruence|exact Hin].
Qed.

(** ** More about enumeration *)

Lemma bucket_lines_filter (P : Bid → Prop) `{∀ b, Decision (P b)} ts i l :
  filter (λ line : Z * Bid, P line.2) ((λ b, (i, b)) <$> bucket_bids ts i l)
  = (λ b, (i, b)) <$> bucket_bids ts i (filter P l).
Proof.
  unfold bucket_bids. induction l as [|x r IH]; [reflexivity|].
  rewrite (filter_cons _ x r).
  destruct (decide (bucket_of ts (bidId x) = i)) as [Hx|Hx].
  - rewrite fmap_cons, !(filter_cons _ _ _). simpl.
    destruct (decide (P x)); simpl.
    + rewrite filter_cons_True by exact Hx. rewrite fmap_cons, IH.
      reflexivity.
    + exact IH.
  - rewrite IH, (filter_cons P x r). destruct (decide (P x)); [|reflexivity].
    rewrite filter_cons_False by exact Hx. reflexivity.
Qed.

Lemma spec_enumerate_filter (P : Bid → Prop) `{∀ b, Decision (P b)} ts l :
  filter (λ line : Z * Bid, P line.2) (spec_enumerate ts l)
  = spec_enumerate ts (filter P l).
Proof.
  unfold spec_enumerate. induction (seqZ 0 ts) as [|i idxs IH];
    [reflexivity|].
  rewrite !bind_cons, filter_app, IH, bucket_lines_filter. reflexivity.
Qed.

Lemma bucket_bids_fmap (f : Bid → Bid) ts i l :
  (∀ x, bidId (f x) = bidId x) →
  bucket_bids ts i (f <$> l) = f <$> bucket_bids ts i l.
Proof.
  intros Hf. unfold bucket_bids. induction l as [|x r IH]; [reflexivity|].
  rewrite fmap_cons, !(filter_cons _ _ _), Hf.
  destruct (decide (bucket_of ts (bidId x) = i)); rewrite IH; reflexivity.
Qed.

Lemma spec_enumerate_fmap (f : Bid → Bid) ts l :
  (∀ x, bidId (f x) = bidId x) →
  spec_enumerate ts (f <$> l)
  = (λ line : Z * Bid, (line.1, f line.2)) <$> spec_enumerate ts l.
Proof.
  intros Hf. unfold spec_enumerate. induction (seqZ 0 ts) as [|i idxs IH];
    [reflexivity|].
  rewrite !bind_cons, fmap_app, IH, bucket_bids_fmap by exact Hf.
  rewrite <- !list_fmap_compose. reflexivity.
Qed.

(** ** Reachability *)

Lemma run_app ops1 ops2 t :
  run (ops1 ++ ops2)%list t = run ops1 t ≫= run ops2.
Proof.
  revert t. induction ops1 as [|o ops1 IH]; intros t; [reflexivity|].
  simpl. destruct (step o t) as [t1|]; [apply IH|reflexivity].
Qed.

Lemma reachable_step o t t' :
  reachable t → step o t = Some t' → reachable t'.
Proof.
  intros (t0 & ops & Ht0 & Hrun) Hstep. exists t0, (ops ++ [o])%list.
  split; [exact Ht0|]. rewrite run_app, Hrun. simpl. rewrite Hstep.
  reflexivity.
Qed.

Lemma step_keeps_size o t t' :
  step o t = Some t' →
  tableSize t' = tableSize t ∧ length (nodes t') = length (nodes t).
Proof.
  destruct o as [b|id]; simpl; unfold Insert, Remove; intros Hstep.
  - destruct (hash t (bidId b)) as [i|]; [|discriminate]. simpl in Hstep.
    destruct (nodes t !! Z.to_nat i); [|discriminate].
    injection Hstep as <-. simpl. rewrite length_insert. split; reflexivity.
  - destruct (hash t id) as [i|]; [|discriminate]. simpl in Hstep.
    destruct (nodes t !! Z.to_nat i); [|discriminate].
    injection Hstep as <-. simpl. rewrite length_insert. split; reflexivity.
Qed.

(** ** Hashing and construction *)

(** X1.  On a well-formed table [hash] is defined and returns an index
    below [tableSize]; it is never the marker [UINT_MAX] of an unoccupied
    head. *)
Theorem hash_in_range (t : HashTable) (k : string) :
  well_formed t →
  ∃ i, hash t k = Some i ∧ 0 ≤ i < tableSize t ∧ i ≠ UINT_MAX.
Proof.
  intros Hwf. exists (bucket_of (tableSize t) k).
  split; [apply hash_well_formed, Hwf|].
  split; [apply bucket_of_range, Hwf|apply bucket_of_not_marker, Hwf].
Qed.

(** X2.  On a well-formed table the integer [hash] of an [int] key is an
    index below [tableSize]: the remainder of the key when it is not
    negative, and the remainder of [key + 2^32] when it is. *)
Theorem hash_int_in_range (t : HashTable) (k : Z) :
  well_formed t →
  - 2 ^ 31 ≤ k < 2 ^ 31 →
  ∃ i, hash_int t k = Some i
       ∧ 0 ≤ i < tableSize t
       ∧ (0 ≤ k → i = k mod tableSize t)
       ∧ (k < 0 → i = (k + 2 ^ 32) mod tableSize t).
Proof.
  intros [Hts _] Hk. unfold hash_int, uint_wrap.
  destruct (Z.eqb_spec (tableSize t) 0); [lia|].
  eexists. split; [reflexivity|].
  split; [apply Z.mod_pos_bound; lia|]. split; intros Hsign.
  - rewrite (Z.mod_small k) by lia. reflexivity.
  - rewrite <- (Z.mod_add k 1 (2 ^ 32)) by lia.
    rewrite (Z.mod_small (k + 1 * 2 ^ 32)) by lia. f_equal; lia.
Qed.

(** X3.  A table as either constructor leaves it is well formed and empty:
    [PrintAll] prints nothing, every [Search] returns the default bid, and
    there is no overflow node. *)
Theorem constructed_table_empty (t0 : HashTable) :
  constructed t0 →
  well_formed t0
  ∧ PrintAll t0 = Some []
  ∧ (∀ id, Search id t0 = Some Bid_default)
  ∧ overflow_nodes t0 = 0%nat.
Proof.
  intros Ht0. pose proof (represents_constructed t0 Ht0) as Hrep.
  split; [apply Hrep|]. split.
  - rewrite (represents_PrintAll t0 [] Hrep). f_equal.
    unfold spec_enumerate. induction (seqZ 0 (tableSize t0)) as [|i r IH];
      [reflexivity|exact IH].
  - split; [intros id; apply (represents_Search id t0 [] Hrep)|].
    destruct Hrep as (_ & _ & Hlay). unfold overflow_nodes.
    assert (Forall (λ n, n = Node_default) (nodes t0)) as Hall.
    { apply Forall_lookup. intros i n Hn. apply (Hlay i n Hn). }
    clear Hlay. induction Hall as [|n ns -> _ IH]; [reflexivity|exact IH].
Qed.

(** X4.  In a table reached from a constructor no call reads outside the
    vector or divides by zero: [Insert] and [Remove] return a table, again
    reachable, and [Search] and [PrintAll] return their result. *)
Theorem reachable_operations_defined (t : HashTable) :
  reachable t →
  well_formed t
  ∧ (∀ b, ∃ t', Insert b t = Some t' ∧ reachable t')
  ∧ (∀ id, ∃ t', Remove id t = Some t' ∧ reachable t')
  ∧ (∀ id, is_Some (Search id t))
  ∧ is_Some (PrintAll t).
Proof.
  intros Hreach. destruct (reachable_represents t Hreach) as [l Hrep].
  split; [apply Hrep|]. split; [|split; [|split]].
  - intros b. destruct (represents_Insert b t l Hrep) as (t' & HI & _).
    exists t'. split; [exact HI|].
    apply (reachable_step (OpInsert b) t t' Hreach HI).
  - intros id. destruct (represents_Remove id t l Hrep) as (t' & HR & _).
    exists t'. split; [exact HR|].
    apply (reachable_step (OpRemove id) t t' Hreach HR).
  - intros id. rewrite (represents_Search id t l Hrep). eexists; reflexivity.
  - rewrite (represents_PrintAll t l Hrep). eexists; reflexivity.
Qed.

(** X5.  No sequence of [Insert] and [Remove] calls changes [tableSize] or
    the number of head slots: the table is never resized. *)
Theorem run_keeps_size (ops : list Op) (t0 t : HashTable) :
  run ops t0 = Some t →
  tableSize t = tableSize t0 ∧ length (nodes t) = length (nodes t0).
Proof.
  revert t0. induction ops as [|o ops IH]; intros t0 Hrun; simpl in Hrun.
  - injection Hrun as ->. split; reflexivity.
  - destruct (step o t0) as [t1|] eqn:Hstep; [|discriminate]. simpl in Hrun.
    destruct (step_keeps_size o t0 t1 Hstep) as [Hts Hlen].
    destruct (IH t1 Hrun) as [Hts' Hlen']. split; congruence.
Qed.

(** ** How the operations compose *)

(** X6.  [Insert] on a well-formed table changes no head slot other than the
    one at the index [hash] gives for the record's identifier. *)
Theorem Insert_frame (R : Bid) (t : HashTable) :
  well_formed t →
  ∃ i t',
    hash t (bidId R) = Some i
    ∧ Insert R t = Some t'
    ∧ ∀ j : nat, j ≠ Z.to_nat i → nodes t' !! j = nodes t !! j.
Proof.
  intros Hwf. destruct (Insert_well_formed R t Hwf) as (head & Hhead & HI).
  eexists _, _. split; [apply hash_well_formed, Hwf|].
  split; [exact HI|]. simpl.
  intros j Hj. apply list_lookup_insert_ne. congruence.
Qed.

(** X7.  In a reachable table, [Insert R] does not change what [Search]
    returns for any identifier other than that of [R]. *)
Theorem Insert_keeps_other_searches (R : Bid) (id : string) (t : HashTable) :
  reachable t →
  id ≠ bidId R →
  ∃ t', Insert R t = Some t' ∧ Search id t' = Search id t.
Proof.
  intros Hreach Hne. destruct (reachable_represents t Hreach) as [l Hrep].
  destruct (represents_Insert R t l Hrep) as (t' & HI & Hrep' & _).
  exists t'. split; [exact HI|].
  rewrite (represents_Search id t' _ Hrep'), (represents_Search id t l Hrep).
  rewrite spec_search_insert_ne by exact Hne. reflexivity.
Qed.

(** X8.  In a reachable table, after [Remove id] the search for [id]
    returns the default bid, whether or not [id] was stored, and the search
    for every other identifier returns what it returned before. *)
Theorem Remove_then_Search (id : string) (t : HashTable) :
  reachable t →
  ∃ t', Remove id t = Some t'
        ∧ Search id t' = Some Bid_default
        ∧ ∀ id', id' ≠ id → Search id' t' = Search id' t.
Proof.
  intros Hreach. destruct (reachable_represents t Hreach) as [l Hrep].
  pose proof Hrep as (_ & Hnd & _).
  destruct (represents_Remove id t l Hrep) as (t' & HR & Hrep' & _).
  exists t'. split; [exact HR|]. split.
  - rewrite (represents_Search id t' _ Hrep'). f_equal.
    apply spec_search_absent, spec_remove_ids, Hnd.
  - intros id' Hne.
    rewrite (represents_Search id' t' _ Hrep'), (represents_Search id' t l Hrep).
    rewrite spec_search_remove_ne by exact Hne. reflexivity.
Qed.

(** X9.  In a reachable table, what [Search id] returns is either the
    default bid or a record that [PrintAll] prints, in the bucket of [id]
    and with the identifier [id]: never a record stored under another
    identifier. *)
Theorem Search_result_printed
    (id : string) (t : HashTable) (out : list (Z * Bid)) (r : Bid) :
  reachable t →
  PrintAll t = Some out →
  Search id t = Some r →
  r = Bid_default
  ∨ ((bucket_of (tableSize t) id, r) ∈ out ∧ bidId r = id).
Proof.
  intros Hreach Hout Hr. destruct (reachable_represents t Hreach) as [l Hrep].
  pose proof Hrep as ([Hts _] & _ & _).
  rewrite (represents_PrintAll t l Hrep) in Hout. injection Hout as <-.
  rewrite (represents_Search id t l Hrep) in Hr. injection Hr as <-.
  destruct (spec_search_cases id l) as [Hd|[Hin Hid]]; [left; exact Hd|right].
  split; [|exact Hid]. apply elem_of_spec_enumerate; [exact Hts|].
  split; [exact Hin|]. rewrite Hid. reflexivity.
Qed.

(** X10.  In a reachable table, [Insert] of a record whose identifier is
    not printed adds exactly one line: [PrintAll] prints one line more, and
    the lines of the other identifiers are the former lines in the former
    order. *)
Theorem Insert_new_adds_one_line
    (R : Bid) (t : HashTable) (out : list (Z * Bid)) :
  reachable t →
  PrintAll t = Some out →
  bidId R ∉ printed_ids out →
  ∃ t' out',
    Insert R t = Some t'
    ∧ PrintAll t' = Some out'
    ∧ length out' = S (length out)
    ∧ filter (λ line, bidId line.2 ≠ bidId R) out' = out.
Proof.
  intros Hreach Hout Hnin. destruct (reachable_represents t Hreach) as [l Hrep].
  pose proof Hrep as ([Hts _] & Hnd & _).
  rewrite (represents_PrintAll t l Hrep) in Hout. injection Hout as <-.
  rewrite printed_ids_spec_enumerate in Hnin by assumption.
  destruct (represents_Insert R t l Hrep) as (t' & HI & Hrep' & Hts').
  pose proof Hrep' as (_ & Hnd' & _).
  exists t'. eexists. split; [exact HI|].
  split; [apply represents_PrintAll, Hrep'|]. rewrite Hts'. split.
  - rewrite <- (length_fmap snd), <- (length_fmap snd (spec_enumerate _ l)).
    rewrite !spec_enumerate_perm by assumption.
    rewrite <- (length_fmap bidId), spec_insert_ids_new by exact Hnin.
    rewrite length_app, length_fmap. simpl. lia.
  - pose proof (spec_enumerate_filter (λ b, bidId b ≠ bidId R)
                  (tableSize t) (spec_insert R l)) as Hfilter.
    etrans; [exact Hfilter|].
    rewrite spec_insert_new_filter by exact Hnin. reflexivity.
Qed.

(** X11.  In a reachable table, [Insert] of a record whose identifier is
    already printed rewrites that line in place: [PrintAll] prints the
    former lines in the former order, with the record of that identifier
    replaced by the new one. *)
Theorem Insert_update_in_place
    (R : Bid) (t : HashTable) (out : list (Z * Bid)) :
  reachable t →
  PrintAll t = Some out →
  bidId R ∈ printed_ids out →
  ∃ t',
    Insert R t = Some t'
    ∧ PrintAll t'
      = Some ((λ line : Z * Bid,
                 (line.1, if decide (bidId line.2 = bidId R) then R
                          else line.2)) <$> out).
Proof.
  intros Hreach Hout Hin. destruct (reachable_represents t Hreach) as [l Hrep].
  pose proof Hrep as ([Hts _] & Hnd & _).
  rewrite (represents_PrintAll t l Hrep) in Hout. injection Hout as <-.
  rewrite printed_ids_spec_enumerate in Hin by assumption.
  destruct (represents_Insert R t l Hrep) as (t' & HI & Hrep' & Hts').
  exists t'. split; [exact HI|].
  rewrite (represents_PrintAll t' _ Hrep'), Hts'. f_equal.
  rewrite spec_insert_old_fmap by assumption.
  apply (spec_enumerate_fmap
           (λ x, if decide (bidId x = bidId R) then R else x)).
  intros x. case_decide; congruence.
Qed.

(** X12.  In a reachable table, after [Remove id] [PrintAll] prints the
    former lines without those of [id], in the former order. *)
Theorem Remove_prints_rest
    (id : string) (t : HashTable) (out : list (Z * Bid)) :
  reachable t →
  PrintAll t = Some out →
  ∃ t',
    Remove id t = Some t'
    ∧ PrintAll t' = Some (filter (λ line, bidId line.2 ≠ id) out).
Proof.
  intros Hreach Hout. destruct (reachable_represents t Hreach) as [l Hrep].
  pose proof Hrep as (_ & Hnd & _).
  rewrite (represents_PrintAll t l Hrep) in Hout. injection Hout as <-.
  destruct (represents_Remove id t l Hrep) as (t' & HR & Hrep' & Hts').
  exists t'. split; [exact HR|].
  rewrite (represents_PrintAll t' _ Hrep'), Hts'. f_equal.
  rewrite spec_remove_filter by exact Hnd. symmetry.
  exact (spec_enumerate_filter (λ b, bidId b ≠ id) (tableSize t) l).
Qed.

(** X13.  In a reachable table, inserting a record whose identifier is not
    printed and then removing that identifier gives back the very same
    table state. *)
Theorem Insert_Remove_restores
    (R : Bid) (t : HashTable) (out : list (Z * Bid)) :
  reachable t →
  PrintAll t = Some out →
  bidId R ∉ printed_ids out →
  Insert R t ≫= Remove (bidId R) = Some t.
Proof.
  intros Hreach Hout Hnin. destruct (reachable_represents t Hreach) as [l Hrep].
  pose proof Hrep as ([Hts _] & Hnd & _).
  rewrite (represents_PrintAll t l Hrep) in Hout. injection Hout as <-.
  rewrite printed_ids_spec_enumerate in Hnin by assumption.
  destruct (represents_Insert R t l Hrep) as (t1 & HI & Hrep1 & Hts1).
  destruct (represents_Remove (bidId R) t1 _ Hrep1) as (t2 & HR & Hrep2 & Hts2).
  rewrite HI. simpl. rewrite HR. f_equal.
  rewrite spec_remove_insert_new in Hrep2 by exact Hnin.
  apply (represents_inj t2 t l Hrep2 Hrep). congruence.
Qed.

(** X14.  In a reachable table, of two successive [Insert]s with the same
    identifier only the second counts: the table state is the one the
    second [Insert] alone would give.  In particular inserting a record
    twice is the same as inserting it once. *)
Theorem Insert_overwrites (R1 R2 : Bid) (t : HashTable) :
  reachable t →
  bidId R1 = bidId R2 →
  Insert R1 t ≫= Insert R2 = Insert R2 t.
Proof.
  intros Hreach Hid. destruct (reachable_represents t Hreach) as [l Hrep].
  destruct (represents_Insert R1 t l Hrep) as (t1 & HI1 & Hrep1 & Hts1).
  destruct (represents_Insert R2 t1 _ Hrep1) as (t12 & HI12 & Hrep12 & Hts12).
  destruct (represents_Insert R2 t l Hrep) as (t2 & HI2 & Hrep2 & Hts2).
  rewrite HI1. simpl. rewrite HI12, HI2. f_equal.
  rewrite spec_insert_insert_same in Hrep12 by exact Hid.
  apply (represents_inj t12 t2 _ Hrep12 Hrep2). congruence.
Qed.

(** X15.  On a well-formed table, two [Insert]s whose identifiers hash to
    different buckets commute: either order gives the same table state. *)
Theorem Insert_commute_buckets (R1 R2 : Bid) (t : HashTable) :
  well_formed t →
  hash t (bidId R1) ≠ hash t (bidId R2) →
  Insert R1 t ≫= Insert R2 = Insert R2 t ≫= Insert R1.
Proof.
  intros Hwf Hne. rewrite !hash_well_formed in Hne by exact Hwf.
  assert (Z.to_nat (bucket_of (tableSize t) (bidId R1))
          ≠ Z.to_nat (bucket_of (tableSize t) (bidId R2))) as Hidx.
  { pose proof (bucket_of_range (tableSize t) (bidId R1) (proj1 Hwf)).
    pose proof (bucket_of_range (tableSize t) (bidId R2) (proj1 Hwf)).
    intros Heq. apply Hne. f_equal. lia. }
  destruct (Insert_well_formed R1 t Hwf) as (h1 & Hh1 & ->).
  destruct (Insert_well_formed R2 t Hwf) as (h2 & Hh2 & ->).
  simpl. unfold Insert, hash. simpl.
  destruct (Z.eqb_spec (tableSize t) 0) as [Hz|_];
    [destruct Hwf as [Hts _]; lia|].
  simpl. rewrite !list_lookup_insert_ne by congruence. rewrite Hh1, Hh2.
  simpl. f_equal. f_equal. apply list_insert_insert_ne. congruence.
Qed.

(** X16.  In a reachable table two [Remove]s commute: either order gives
    the same table state. *)
Theorem Remove_commute (a b : string) (t : HashTable) :
  reachable t →
  Remove a t ≫= Remove b = Remove b t ≫= Remove a.
Proof.
  intros Hreach. destruct (reachable_represents t Hreach) as [l Hrep].
  destruct (represents_Remove a t l Hrep) as (ta & Ha & Hrepa & Htsa).
  destruct (represents_Remove b ta _ Hrepa) as (tab & Hab & Hrepab & Htsab).
  destruct (represents_Remove b t l Hrep) as (tb & Hb & Hrepb & Htsb).
  destruct (represents_Remove a tb _ Hrepb) as (tba & Hba & Hrepba & Htsba).
  rewrite Ha, Hb. simpl. rewrite Hab, Hba. f_equal.
  rewrite spec_remove_comm in Hrepab.
  apply (represents_inj tab tba _ Hrepab Hrepba). congruence.
Qed.

(** X17.  In a reachable table every line [PrintAll] prints starts with the
    bucket index that [hash] gives for the identifier on that line, an
    index below [tableSize]. *)
Theorem printed_key_is_bucket
    (t : HashTable) (out : list (Z * Bid)) (k : Z) (b : Bid) :
  reachable t →
  PrintAll t = Some out →
  (k, b) ∈ out →
  hash t (bidId b) = Some k ∧ 0 ≤ k < tableSize t.
Proof.
  intros Hreach Hout Hin. destruct (reachable_represents t Hreach) as [l Hrep].
  pose proof Hrep as (Hwf & _ & _).
  rewrite (represents_PrintAll t l Hrep) in Hout. injection Hout as <-.
  apply elem_of_spec_enumerate in Hin as [_ ->]; [|apply Hwf].
  split; [apply hash_well_formed, Hwf|apply bucket_of_range, Hwf].
Qed.

(** ** Heap nodes *)

Lemma insert_walk_balance b i n :
  chain_length (insert_walk b i n)
  = (chain_length n + insert_walk_news b n)%nat.
Proof.
  induction n as [x k|x k n IH] using Node_chain_ind; simpl.
  - case_decide; reflexivity.
  - case_decide; simpl; [lia|]. rewrite IH. lia.
Qed.

Lemma insert_walk_news_le b n : (insert_walk_news b n ≤ 1)%nat.
Proof.
  induction n as [x k|x k n IH] using Node_chain_ind; simpl;
    case_decide; lia.
Qed.

Lemma chain_length_next x k n :
  chain_length (mkNode x k (next n)) = chain_length n.
Proof. destruct n as [y j [nx|]]; reflexivity. Qed.

Lemma remove_walk_balance id n :
  (chain_length (remove_walk id n) + remove_walk_deletes id n)%nat
  = chain_length n.
Proof.
  induction n as [x k|x k n IH] using Node_chain_ind; [reflexivity|].
  cbn [remove_walk remove_walk_deletes next bid key].
  case_decide.
  - rewrite chain_length_next. simpl. lia.
  - simpl. rewrite <- IH. lia.
Qed.

Lemma remove_walk_deletes_le id n : (remove_walk_deletes id n ≤ 1)%nat.
Proof.
  induction n as [x k|x k n IH] using Node_chain_ind; simpl; [lia|].
  case_decide; [lia|exact IH].
Qed.

Lemma remove_head_balance id head :
  (chain_length (remove_head id head) + remove_head_deletes id head)%nat
  = chain_length head.
Proof.
  unfold remove_head, remove_head_deletes.
  destruct (_ && _); [lia|]. destruct (_ && _).
  - destruct head as [x k [nx|]]; cbn [next];
      [rewrite chain_length_next|]; simpl; lia.
  - apply remove_walk_balance.
Qed.

Lemma insert_head_balance b i bs :
  i ≠ UINT_MAX →
  chain_length (insert_head b i (head_of i bs))
  = (chain_length (head_of i bs) + insert_head_news b (head_of i bs))%nat.
Proof.
  intros Hi. unfold insert_head, insert_head_news.
  destruct bs as [|x r]; [reflexivity|]. cbn [head_of key].
  destruct (Z.eqb_spec i UINT_MAX) as [|_]; [contradiction|].
  apply insert_walk_balance.
Qed.

Lemma delete_chain_length n : delete_chain n = S (chain_length n).
Proof.
  induction n as [x k|x k n IH] using Node_chain_ind; simpl;
    [reflexivity|]. rewrite IH. reflexivity.
Qed.

Lemma sum_list_with_insert {A} (f : A → nat) (l : list A) i x y :
  l !! i = Some x →
  (sum_list_with f (<[i:=y]> l) + f x)%nat = (sum_list_with f l + f y)%nat.
Proof.
  revert i. induction l as [|z l IH]; intros [|i] Hi; simpl in *;
    try discriminate.
  - injection Hi as ->. lia.
  - specialize (IH i Hi). lia.
Qed.

Lemma Insert_balance b t l :
  represents t l →
  ∃ t' n, Insert b t = Some t'
          ∧ Insert_news b t = Some n
          ∧ overflow_nodes t' = (overflow_nodes t + n)%nat.
Proof.
  intros (Hwf & _ & Hlay).
  destruct (Insert_well_formed b t Hwf) as (head & Hhead & ->).
  unfold Insert_news. rewrite hash_well_formed by exact Hwf. simpl.
  rewrite Hhead. simpl. eexists _, _. split; [reflexivity|].
  split; [reflexivity|]. unfold overflow_nodes. simpl.
  pose proof (sum_list_with_insert chain_length (nodes t) _ head
    (insert_head b (bucket_of (tableSize t) (bidId b)) head) Hhead) as Hsum.
  pose proof (bucket_of_range (tableSize t) (bidId b) (proj1 Hwf)) as Hrange.
  apply Hlay in Hhead. rewrite Z2Nat.id in Hhead by lia.
  rewrite Hhead in Hsum |- * at 1.
  rewrite insert_head_balance in Hsum by apply bucket_of_not_marker, Hwf.
  rewrite <- Hhead in *. lia.
Qed.

Lemma Remove_balance id t :
  well_formed t →
  ∃ t' d, Remove id t = Some t'
          ∧ Remove_deletes id t = Some d
          ∧ (overflow_nodes t' + d)%nat = overflow_nodes t.
Proof.
  intros Hwf.
  destruct (Remove_well_formed id t Hwf) as (head & Hhead & ->).
  unfold Remove_deletes. rewrite hash_well_formed by exact Hwf. simpl.
  rewrite Hhead. simpl. eexists _, _. split; [reflexivity|].
  split; [reflexivity|]. unfold overflow_nodes. simpl.
  pose proof (sum_list_with_insert chain_length (nodes t) _ head
    (remove_head id head) Hhead) as Hsum.
  pose proof (remove_head_balance id head). lia.
Qed.

Lemma run_balance ops t l :
  represents t l →
  ∃ t' n d, run ops t = Some t'
            ∧ run_news ops t = Some n
            ∧ run_deletes ops t = Some d
            ∧ (overflow_nodes t' + d)%nat = (overflow_nodes t + n)%nat.
Proof.
  revert t l. induction ops as [|o ops IH]; intros t l Hrep.
  - exists t, 0%nat, 0%nat. repeat split; lia.
  - destruct (represents_step o t l Hrep) as (t1 & Hstep & Hrep1 & _).
    destruct (IH t1 _ Hrep1) as (t2 & n & d & Hrun & Hn & Hd & Hbal).
    assert (∃ n1 d1, step_news o t = Some n1 ∧ step_deletes o t = Some d1
                     ∧ (overflow_nodes t1 + d1)%nat
                       = (overflow_nodes t + n1)%nat) as (n1 & d1 & Hn1 & Hd1 & Hb1).
    { destruct o as [b|id]; simpl in *.
      - destruct (Insert_balance b t l Hrep) as (t1' & n1 & HI & Hn1 & Hb).
        exists n1, 0%nat. rewrite HI in Hstep. injection Hstep as ->.
        split; [exact Hn1|]. split; [reflexivity|lia].
      - destruct (Remove_balance id t (proj1 Hrep)) as (t1' & d1 & HR & Hd1 & Hb).
        exists 0%nat, d1. rewrite HR in Hstep. injection Hstep as ->.
        split; [reflexivity|]. split; [exact Hd1|lia]. }
    exists t2, (n1 + n)%nat, (d1 + d)%nat. simpl.
    rewrite Hstep, Hn1, Hd1. simpl. rewrite Hrun, Hn, Hd. simpl.
    repeat split; lia.
Qed.

Lemma destroy_buckets_from (front todo : list Node) :
  destroy_buckets (seqZ (Z.of_nat (length front)) (Z.of_nat (length todo)))
                  (front ++ todo)%list
  = Some ((front ++ ((λ h, mkNode (bid h) UINT_MAX None) <$> todo))%list,
          sum_list_with chain_length todo).
Proof.
  revert front. induction todo as [|x todo IH]; intros front.
  - reflexivity.
  - rewrite seqZ_cons by (simpl; lia). cbn [destroy_buckets].
    unfold destroy_bucket. rewrite Nat2Z.id, list_lookup_middle by reflexivity.
    cbn [mbind option_bind fst snd].
    replace (<[length front:=mkNode (bid x) UINT_MAX None]>
               (front ++ x :: todo)%list)
      with ((front ++ [mkNode (bid x) UINT_MAX None]) ++ todo)%list.
    2:{ rewrite insert_app_r_alt by lia. rewrite Nat.sub_diag.
        rewrite <- app_assoc. reflexivity. }
    replace (Z.succ (Z.of_nat (length front)))
      with (Z.of_nat (length (front ++ [mkNode (bid x) UINT_MAX None])%list))
      by (rewrite length_app; simpl; lia).
    replace (Z.pred (Z.of_nat (length (x :: todo))))
      with (Z.of_nat (length todo)) by (simpl; lia).
    rewrite IH. cbn [mbind option_bind fst snd]. f_equal. f_equal.
    + rewrite <- app_assoc. reflexivity.
    + destruct x as [b k [nx|]]; simpl; [|reflexivity].
      rewrite delete_chain_length. reflexivity.
Qed.

Lemma destructor_well_formed t :
  well_formed t →
  HashTable_destructor t
  = Some ((λ h, mkNode (bid h) UINT_MAX None) <$> nodes t, overflow_nodes t).
Proof.
  intros [Hts Hlen]. unfold HashTable_destructor.
  replace (tableSize t) with (Z.of_nat (length (nodes t))) by lia.
  apply (destroy_buckets_from [] (nodes t)).
Qed.

Lemma insert_walk_news_present b i x r :
  bidId b ∈ bidId <$> x :: r →
  insert_walk_news b (mkNode x i (chain_of i r)) = 0%nat.
Proof.
  revert x. induction r as [|y r IH]; intros x Hin; simpl.
  - apply list_elem_of_singleton in Hin.
    rewrite decide_True by congruence. reflexivity.
  - case_decide as Hx; [reflexivity|]. apply IH.
    apply elem_of_cons in Hin as [Hin|Hin]; [congruence|exact Hin].
Qed.

Lemma remove_walk_deletes_absent id i x k r :
  id ∉ bidId <$> r →
  remove_walk_deletes id (mkNode x k (chain_of i r)) = 0%nat.
Proof.
  revert x k. induction r as [|y r IH]; intros x k Hnin; [reflexivity|].
  rewrite fmap_cons in Hnin. apply not_elem_of_cons in Hnin as [Hne Hnin].
  specialize (IH y i Hnin). simpl. rewrite decide_False by congruence.
  exact IH.
Qed.

Lemma bucket_bids_ids_elem ts b l :
  bidId b ∈ bidId <$> l →
  bidId b ∈ bidId <$> bucket_bids ts (bucket_of ts (bidId b)) l.
Proof.
  intros Hin. apply list_elem_of_fmap in Hin as (x & Hid & Hin).
  apply list_elem_of_fmap. exists x. split; [exact Hid|].
  apply list_elem_of_filter. split; [congruence|exact Hin].
Qed.

Lemma bucket_bids_ids_not_elem ts i id l :
  id ∉ bidId <$> l → id ∉ bidId <$> bucket_bids ts i l.
Proof.
  intros Hnin Hin. apply Hnin.
  apply list_elem_of_fmap in Hin as (x & Hid & Hin).
  apply list_elem_of_filter in Hin as [_ Hin].
  apply list_elem_of_fmap. exists x. split; assumption.
Qed.

(** X18.  The destructor of a well-formed table executes one [delete] for
    each overflow node of the table.  When its loop ends every head has
    [key = UINT_MAX] and a null [next]; the bids in the heads are left as
    they were. *)
Theorem destructor_deletes_all (t : HashTable) :
  well_formed t →
  ∃ heads,
    HashTable_destructor t = Some (heads, overflow_nodes t)
    ∧ length heads = length (nodes t)
    ∧ Forall (λ h, key h = UINT_MAX ∧ next h = None) heads
    ∧ bid <$> heads = bid <$> nodes t.
Proof.
  intros Hwf. eexists. split; [apply destructor_well_formed, Hwf|].
  split; [apply length_fmap|]. split.
  - apply Forall_fmap, Forall_true. intros h. split; reflexivity.
  - rewrite <- list_fmap_compose. reflexivity.
Qed.

(** X19.  Over the life of a table, from a constructor through any sequence
    of [Insert] and [Remove] calls to the destructor, as many nodes are
    released with [delete] as were created with [new]: no overflow node is
    leaked. *)
Theorem news_equal_deletes (t0 : HashTable) (ops : list Op) :
  constructed t0 →
  ∃ t news deletes heads last_deletes,
    run ops t0 = Some t
    ∧ run_news ops t0 = Some news
    ∧ run_deletes ops t0 = Some deletes
    ∧ HashTable_destructor t = Some (heads, last_deletes)
    ∧ news = (deletes + last_deletes)%nat.
Proof.
  intros Ht0. pose proof (represents_constructed t0 Ht0) as Hrep0.
  destruct (run_balance ops t0 [] Hrep0) as (t & n & d & Hrun & Hn & Hd & Hbal).
  destruct (represents_run ops t0 [] Hrep0) as (t' & Hrun' & Hrep & _).
  assert (t' = t) as -> by congruence.
  assert (overflow_nodes t0 = 0%nat) as Hzero.
  { destruct Hrep0 as (_ & _ & Hlay). unfold overflow_nodes.
    assert (Forall (λ h, h = Node_default) (nodes t0)) as Hall.
    { apply Forall_lookup. intros i h Hh. apply (Hlay i h Hh). }
    clear Hlay. induction Hall as [|h ns -> _ IH]; [reflexivity|exact IH]. }
  exists t, n, d. eexists _, _. split; [exact Hrun|].
  split; [exact Hn|]. split; [exact Hd|].
  split; [apply destructor_well_formed, Hrep|]. lia.
Qed.

(** X20.  In a reachable table one [Insert] executes at most one [new], and
    none when the identifier of the record is already printed (an update
    allocates nothing). *)
Theorem Insert_allocates_at_most_one
    (R : Bid) (t : HashTable) (out : list (Z * Bid)) :
  reachable t →
  PrintAll t = Some out →
  ∃ n, Insert_news R t = Some n
       ∧ (n ≤ 1)%nat
       ∧ (bidId R ∈ printed_ids out → n = 0%nat).
Proof.
  intros Hreach Hout. destruct (reachable_represents t Hreach) as [l Hrep].
  pose proof Hrep as (Hwf & Hnd & Hlay).
  rewrite (represents_PrintAll t l Hrep) in Hout. injection Hout as <-.
  destruct (head_well_formed t (bidId R) Hwf) as [head Hhead].
  unfold Insert_news. rewrite hash_well_formed by exact Hwf. simpl.
  rewrite Hhead. simpl. eexists. split; [reflexivity|].
  pose proof (bucket_of_range (tableSize t) (bidId R) (proj1 Hwf)) as Hrange.
  pose proof (bucket_of_not_marker (tableSize t) (bidId R) (proj1 Hwf)) as Hm.
  apply Hlay in Hhead. rewrite Z2Nat.id in Hhead by lia. subst head.
  unfold insert_head_news. split.
  - destruct (_ =? _); [lia|apply insert_walk_news_le].
  - intros Hin. rewrite printed_ids_spec_enumerate in Hin by (apply Hwf || exact Hnd).
    apply (bucket_bids_ids_elem (tableSize t)) in Hin.
    destruct (bucket_bids _ _ l) as [|x r]; [inversion Hin|].
    cbn [head_of key].
    destruct (Z.eqb_spec (bucket_of (tableSize t) (bidId R)) UINT_MAX);
      [contradiction|].
    apply insert_walk_news_present, Hin.
Qed.

(** X21.  In a reachable table one [Remove] executes at most one [delete],
    and none when the identifier is not printed. *)
Theorem Remove_deletes_at_most_one
    (id : string) (t : HashTable) (out : list (Z * Bid)) :
  reachable t →
  PrintAll t = Some out →
  ∃ d, Remove_deletes id t = Some d
       ∧ (d ≤ 1)%nat
       ∧ (id ∉ printed_ids out → d = 0%nat).
Proof.
  intros Hreach Hout. destruct (reachable_represents t Hreach) as [l Hrep].
  pose proof Hrep as (Hwf & Hnd & Hlay).
  rewrite (represents_PrintAll t l Hrep) in Hout. injection Hout as <-.
  destruct (head_well_formed t id Hwf) as [head Hhead].
  unfold Remove_deletes. rewrite hash_well_formed by exact Hwf. simpl.
  rewrite Hhead. simpl. eexists. split; [reflexivity|].
  pose proof (bucket_of_range (tableSize t) id (proj1 Hwf)) as Hrange.
  pose proof (bucket_of_not_marker (tableSize t) id (proj1 Hwf)) as Hm.
  apply Hlay in Hhead. rewrite Z2Nat.id in Hhead by lia. subst head.
  unfold remove_head_deletes. split.
  - destruct (_ && _); [lia|]. destruct (_ && _).
    + destruct (next _); lia.
    + apply remove_walk_deletes_le.
  - intros Hnin.
    rewrite printed_ids_spec_enumerate in Hnin by (apply Hwf || exact Hnd).
    apply (bucket_bids_ids_not_elem (tableSize t) (bucket_of (tableSize t) id))
      in Hnin.
    destruct (bucket_bids _ _ l) as [|x r]; [reflexivity|].
    cbn [head_of key bid next]. simpl in Hnin.
    apply not_elem_of_cons in Hnin as [Hne Hnin].
    destruct (Z.eqb_spec (bucket_of (tableSize t) id) UINT_MAX);
      [contradiction|]. cbn [andb negb].
    rewrite bool_decide_eq_false_2 by congruence.
    apply remove_walk_deletes_absent, Hnin.
Qed.

End MoreProofs.

(** * Properties of the loader *)

Section LoaderProofs.
Context {hs : StdHash} {af : Atof} {file : CsvFile}.

Lemma erase_char_app ch s1 s2 :
  erase_char ch (s1 ++ s2)%string
  = (erase_char ch s1 ++ erase_char ch s2)%string.
Proof.
  induction s1 as [|c s1 IH]; simpl; [reflexivity|].
  destruct (Ascii.eqb c ch); simpl; rewrite IH; reflexivity.
Qed.

Lemma erase_char_absent ch str :
  ¬ In ch (list_ascii_of_string str) → erase_char ch str = str.
Proof.
  induction str as [|c str IH]; simpl; intros Hnin; [reflexivity|].
  destruct (Ascii.eqb_spec c ch) as [->|_]; [tauto|].
  f_equal. apply IH. tauto.
Qed.

(** X22.  [strToDouble] passes to [atof] the string without the character
    [ch]: an occurrence of [ch] anywhere in the string makes no difference,
    and a string without [ch] is passed unchanged. *)
Theorem strToDouble_ignores_char (s1 s2 : string) (ch : ascii) :
  strToDouble (s1 ++ String ch s2) ch = strToDouble (s1 ++ s2) ch
  ∧ (¬ In ch (list_ascii_of_string (s1 ++ s2)) →
     strToDouble (s1 ++ String ch s2) ch = atof (s1 ++ s2)%string).
Proof.
  unfold strToDouble.
  assert (erase_char ch (s1 ++ String ch s2) = erase_char ch (s1 ++ s2))
    as Heq.
  { rewrite !erase_char_app. simpl. rewrite Ascii.eqb_refl. reflexivity. }
  rewrite Heq. split; [reflexivity|].
  intros Hnin. rewrite erase_char_absent by exact Hnin. reflexivity.
Qed.

Lemma load_rows_run rows t :
  load_rows rows t = run (OpInsert <$> readable_prefix rows) t.
Proof.
  revert t. induction rows as [|i rows IH]; intros t; simpl; [reflexivity|].
  destruct (row_bid i) as [b|]; simpl; [|reflexivity].
  destruct (Insert b t) as [t'|]; simpl; [apply IH|reflexivity].
Qed.

Lemma reachable_run ops t t' :
  reachable t → run ops t = Some t' → reachable t'.
Proof.
  intros (t0 & ops0 & Ht0 & Hrun0) Hrun. exists t0, (ops0 ++ ops)%list.
  split; [exact Ht0|]. rewrite run_app, Hrun0. exact Hrun.
Qed.

Lemma spec_search_insert_eq b l :
  spec_search (bidId b) (spec_insert b l) = b.
Proof.
  induction l as [|x r IH]; simpl.
  - rewrite decide_True by reflexivity. reflexivity.
  - destruct (decide (bidId x = bidId b)) as [Hx|Hx]; simpl.
    + rewrite decide_True by reflexivity. reflexivity.
    + rewrite decide_False by exact Hx. exact IH.
Qed.

Lemma spec_search_inserts id bs l :
  spec_search id (spec_run (OpInsert <$> bs) l)
  = default (spec_search id l) (last (filter (λ b, bidId b = id) bs)).
Proof.
  revert l. induction bs as [|x bs IH]; intros l; [reflexivity|].
  rewrite fmap_cons. cbn [spec_run spec_step]. rewrite IH, filter_cons.
  destruct (decide (bidId x = id)) as [<-|Hx].
  - rewrite last_cons, spec_search_insert_eq.
    destruct (last _); reflexivity.
  - rewrite spec_search_insert_ne by congruence. reflexivity.
Qed.

(** X23.  [loadBids] on a reachable table returns a reachable table.  In
    it, the search for an identifier returns the bid of the last row with
    that identifier among the rows before the first one that cannot be
    read, and what it returned before the load when there is no such
    row. *)
Theorem loadBids_last_row_wins (t : HashTable) :
  reachable t →
  ∃ t', loadBids t = Some t'
        ∧ reachable t'
        ∧ ∀ id,
            Search id t'
            = match last (filter (λ b, bidId b = id)
                                 (readable_prefix (seq 0 rowCount))) with
              | Some b => Some b
              | None => Search id t
              end.
Proof.
  intros Hreach. destruct (reachable_represents t Hreach) as [l Hrep].
  unfold loadBids. rewrite load_rows_run.
  destruct (represents_run (OpInsert <$> readable_prefix (seq 0 rowCount))
              t l Hrep) as (t' & Hrun & Hrep' & _).
  exists t'. split; [exact Hrun|].
  split; [apply (reachable_run _ t t' Hreach Hrun)|].
  intros id.
  rewrite (represents_Search id t' _ Hrep'), (represents_Search id t l Hrep).
  rewrite spec_search_inserts. destruct (last _); reflexivity.
Qed.

Lemma load_rows_cut k rows1 rows2 t :
  row_bid k = None →
  load_rows (rows1 ++ k :: rows2) t = load_rows rows1 t.
Proof.
  intros Hk. revert t. induction rows1 as [|i rows1 IH]; intros t; simpl.
  - rewrite Hk. reflexivity.
  - destruct (row_bid i) as [b|]; [|reflexivity].
    destruct (Insert b t) as [t'|]; simpl; [apply IH|reflexivity].
Qed.

Lemma load_rows_same_cells n rows t :
  @load_rows hs af (mkCsvFile n cell) rows t = load_rows rows t.
Proof.
  revert t. induction rows as [|i rows IH]; intros t; [reflexivity|].
  cbn [load_rows]. change (@row_bid af (mkCsvFile n cell) i) with (row_bid i).
  destruct (row_bid i) as [b|]; [|reflexivity].
  destruct (Insert b t) as [t'|]; simpl; [apply IH|reflexivity].
Qed.

(** X24.  A row that cannot be read ends the load: the table [loadBids]
    returns is the one it returns for the file cut before that row, so no
    later row is inserted. *)
Theorem loadBids_stops_at_unreadable_row (k : nat) (t : HashTable) :
  (k < rowCount)%nat →
  row_bid k = None →
  loadBids t = @loadBids hs af (mkCsvFile k cell) t.
Proof.
  intros Hlt Hk. unfold loadBids. cbn [rowCount].
  rewrite load_rows_same_cells.
  replace rowCount with (k + S (rowCount - S k))%nat by lia.
  rewrite seq_app. cbn [seq Nat.add]. apply load_rows_cut, Hk.
Qed.

End LoaderProofs.

(** * The further properties on the worked examples *)

Lemma hash_in_range_witness :
  well_formed table_AFB
  ∧ ∃ i, @hash code_sum table_AFB "F" = Some i
         ∧ 0 ≤ i < tableSize table_AFB ∧ i ≠ UINT_MAX.
Proof.
  split; [evaluate|]. apply (@hash_in_range code_sum table_AFB "F"). evaluate.
Defined.

Lemma hash_int_in_range_witness :
  well_formed table_AFB
  ∧ - 2 ^ 31 ≤ (-1) < 2 ^ 31
  ∧ ∃ i, hash_int table_AFB (-1) = Some i
         ∧ 0 ≤ i < tableSize table_AFB
         ∧ (0 ≤ (-1) → i = (-1) mod tableSize table_AFB)
         ∧ ((-1) < 0 → i = ((-1) + 2 ^ 32) mod tableSize table_AFB).
Proof.
  split; [evaluate|]. split; [evaluate|].
  apply (hash_int_in_range table_AFB (-1)); evaluate.
Defined.

Lemma constructed_table_empty_witness :
  constructed (HashTable_new 5)
  ∧ well_formed (HashTable_new 5)
  ∧ PrintAll (HashTable_new 5) = Some []
  ∧ (∀ id, @Search code_sum id (HashTable_new 5) = Some Bid_default)
  ∧ overflow_nodes (HashTable_new 5) = 0%nat.
Proof.
  split; [right; exists 5; evaluate|].
  apply (@constructed_table_empty code_sum (HashTable_new 5)).
  right. exists 5. evaluate.
Defined.

Lemma reachable_operations_defined_witness :
  @reachable code_sum table_AFB
  ∧ well_formed table_AFB
  ∧ (∀ b, ∃ t', @Insert code_sum b table_AFB = Some t'
                ∧ @reachable code_sum t')
  ∧ (∀ id, ∃ t', @Remove code_sum id table_AFB = Some t'
                 ∧ @reachable code_sum t')
  ∧ (∀ id, is_Some (@Search code_sum id table_AFB))
  ∧ is_Some (PrintAll table_AFB).
Proof.
  split; [reached_by 5 ops_AFB|].
  apply (@reachable_operations_defined code_sum table_AFB).
  reached_by 5 ops_AFB.
Defined.

Lemma run_keeps_size_witness :
  @run code_sum ops_AFB_rmA (HashTable_new 5) = Some table_AFB_rmA
  ∧ tableSize table_AFB_rmA = tableSize (HashTable_new 5)
  ∧ length (nodes table_AFB_rmA) = length (nodes (HashTable_new 5)).
Proof.
  split; [reflexivity|].
  apply (@run_keeps_size code_sum ops_AFB_rmA (HashTable_new 5) table_AFB_rmA).
  reflexivity.
Defined.

Lemma Insert_frame_witness :
  well_formed table_AFB
  ∧ ∃ i t',
      @hash code_sum table_AFB (bidId bid_A2) = Some i
      ∧ @Insert code_sum bid_A2 table_AFB = Some t'
      ∧ ∀ j : nat, j ≠ Z.to_nat i → nodes t' !! j = nodes table_AFB !! j.
Proof.
  split; [evaluate|]. apply (@Insert_frame code_sum bid_A2 table_AFB).
  evaluate.
Defined.

Lemma Insert_keeps_other_searches_witness :
  @reachable code_sum table_AFB
  ∧ "F" ≠ bidId bid_A2
  ∧ ∃ t', @Insert code_sum bid_A2 table_AFB = Some t'
          ∧ @Search code_sum "F" t' = @Search code_sum "F" table_AFB.
Proof.
  split; [reached_by 5 ops_AFB|]. split; [discriminate|].
  apply (@Insert_keeps_other_searches code_sum bid_A2 "F" table_AFB).
  - reached_by 5 ops_AFB.
  - discriminate.
Defined.

Lemma Remove_then_Search_witness :
  @reachable code_sum table_AFB
  ∧ ∃ t', @Remove code_sum "A" table_AFB = Some t'
          ∧ @Search code_sum "A" t' = Some Bid_default
          ∧ ∀ id', id' ≠ "A" →
                   @Search code_sum id' t' = @Search code_sum id' table_AFB.
Proof.
  split; [reached_by 5 ops_AFB|].
  apply (@Remove_then_Search code_sum "A" table_AFB). reached_by 5 ops_AFB.
Defined.

Lemma Search_result_printed_witness :
  @reachable code_sum table_AFB
  ∧ PrintAll table_AFB = Some out_AFB
  ∧ @Search code_sum "F" table_AFB = Some bid_F
  ∧ (bid_F = Bid_default
     ∨ ((@bucket_of code_sum (tableSize table_AFB) "F", bid_F) ∈ out_AFB
        ∧ bidId bid_F = "F")).
Proof.
  split; [reached_by 5 ops_AFB|]. split; [reflexivity|].
  split; [reflexivity|].
  apply (@Search_result_printed code_sum "F" table_AFB out_AFB bid_F).
  - reached_by 5 ops_AFB.
  - reflexivity.
  - reflexivity.
Defined.

Lemma Insert_new_adds_one_line_witness :
  @reachable code_sum table_AFB
  ∧ PrintAll table_AFB = Some out_AFB
  ∧ (bidId bid_empty ∉ printed_ids out_AFB)
  ∧ ∃ t' out',
      @Insert code_sum bid_empty table_AFB = Some t'
      ∧ PrintAll t' = Some out'
      ∧ length out' = S (length out_AFB)
      ∧ filter (λ line, bidId line.2 ≠ bidId bid_empty) out' = out_AFB.
Proof.
  split; [reached_by 5 ops_AFB|]. split; [reflexivity|].
  split; [exact (bool_decide_eq_false_1
                  (bidId bid_empty ∈ printed_ids out_AFB) eq_refl)|].
  apply (@Insert_new_adds_one_line code_sum bid_empty table_AFB out_AFB).
  - reached_by 5 ops_AFB.
  - reflexivity.
  - exact (bool_decide_eq_false_1
             (bidId bid_empty ∈ printed_ids out_AFB) eq_refl).
Defined.

Lemma Insert_update_in_place_witness :
  @reachable code_sum table_AFB
  ∧ PrintAll table_AFB = Some out_AFB
  ∧ bidId bid_A2 ∈ printed_ids out_AFB
  ∧ ∃ t',
      @Insert code_sum bid_A2 table_AFB = Some t'
      ∧ PrintAll t' = Some [(0, bid_A2); (0, bid_F); (1, bid_B)].
Proof.
  split; [reached_by 5 ops_AFB|]. split; [reflexivity|].
  split; [left|].
  apply (@Insert_update_in_place code_sum bid_A2 table_AFB out_AFB).
  - reached_by 5 ops_AFB.
  - reflexivity.
  - left.
Defined.

Lemma Remove_prints_rest_witness :
  @reachable code_sum table_AFB
  ∧ PrintAll table_AFB = Some out_AFB
  ∧ ∃ t',
      @Remove code_sum "A" table_AFB = Some t'
      ∧ PrintAll t' = Some [(0, bid_F); (1, bid_B)].
Proof.
  split; [reached_by 5 ops_AFB|]. split; [reflexivity|].
  apply (@Remove_prints_rest code_sum "A" table_AFB out_AFB).
  - reached_by 5 ops_AFB.
  - reflexivity.
Defined.

Lemma Insert_Remove_restores_witness :
  @reachable code_sum table_AFB
  ∧ PrintAll table_AFB = Some out_AFB
  ∧ (bidId bid_empty ∉ printed_ids out_AFB)
  ∧ @Insert code_sum bid_empty table_AFB ≫= @Remove code_sum (bidId bid_empty)
    = Some table_AFB.
Proof.
  split; [reached_by 5 ops_AFB|]. split; [reflexivity|].
  split; [exact (bool_decide_eq_false_1
                  (bidId bid_empty ∈ printed_ids out_AFB) eq_refl)|].
  apply (@Insert_Remove_restores code_sum bid_empty table_AFB out_AFB).
  - reached_by 5 ops_AFB.
  - reflexivity.
  - exact (bool_decide_eq_false_1
             (bidId bid_empty ∈ printed_ids out_AFB) eq_refl).
Defined.

Lemma Insert_overwrites_witness :
  @reachable code_sum table_AFB
  ∧ bidId bid_A = bidId bid_A2
  ∧ @Insert code_sum bid_A table_AFB ≫= @Insert code_sum bid_A2
    = @Insert code_sum bid_A2 table_AFB.
Proof.
  split; [reached_by 5 ops_AFB|]. split; [reflexivity|].
  apply (@Insert_overwrites code_sum bid_A bid_A2 table_AFB).
  - reached_by 5 ops_AFB.
  - reflexivity.
Defined.

Lemma Insert_commute_buckets_witness :
  well_formed table_AFB
  ∧ @hash code_sum table_AFB (bidId bid_A2)
    ≠ @hash code_sum table_AFB (bidId bid_B2)
  ∧ @Insert code_sum bid_A2 table_AFB ≫= @Insert code_sum bid_B2
    = @Insert code_sum bid_B2 table_AFB ≫= @Insert code_sum bid_A2.
Proof.
  split; [evaluate|]. split; [discriminate|].
  apply (@Insert_commute_buckets code_sum bid_A2 bid_B2 table_AFB).
  - evaluate.
  - discriminate.
Defined.

Lemma Remove_commute_witness :
  @reachable code_sum table_AFB
  ∧ @Remove code_sum "A" table_AFB ≫= @Remove code_sum "F"
    = @Remove code_sum "F" table_AFB ≫= @Remove code_sum "A".
Proof.
  split; [reached_by 5 ops_AFB|].
  apply (@Remove_commute code_sum "A" "F" table_AFB). reached_by 5 ops_AFB.
Defined.

Lemma printed_key_is_bucket_witness :
  @reachable code_sum table_AFB
  ∧ PrintAll table_AFB = Some out_AFB
  ∧ (0, bid_F) ∈ out_AFB
  ∧ @hash code_sum table_AFB (bidId bid_F) = Some 0
  ∧ 0 ≤ 0 < tableSize table_AFB.
Proof.
  split; [reached_by 5 ops_AFB|]. split; [reflexivity|].
  split; [right; left|].
  apply (@printed_key_is_bucket code_sum table_AFB out_AFB 0 bid_F).
  - reached_by 5 ops_AFB.
  - reflexivity.
  - right. left.
Defined.

Lemma destructor_deletes_all_witness :
  well_formed table_AFB
  ∧ overflow_nodes table_AFB = 1%nat
  ∧ ∃ heads,
      HashTable_destructor table_AFB = Some (heads, overflow_nodes table_AFB)
      ∧ length heads = length (nodes table_AFB)
      ∧ Forall (λ h, key h = UINT_MAX ∧ next h = None) heads
      ∧ bid <$> heads = bid <$> nodes table_AFB.
Proof.
  split; [evaluate|]. split; [reflexivity|].
  apply (destructor_deletes_all table_AFB). evaluate.
Defined.

Lemma news_equal_deletes_witness :
  constructed (HashTable_new 5)
  ∧ ∃ t news deletes heads last_deletes,
      @run code_sum ops_AFB_rmA (HashTable_new 5) = Some t
      ∧ @run_news code_sum ops_AFB_rmA (HashTable_new 5) = Some news
      ∧ @run_deletes code_sum ops_AFB_rmA (HashTable_new 5) = Some deletes
      ∧ HashTable_destructor t = Some (heads, last_deletes)
      ∧ news = (deletes + last_deletes)%nat.
Proof.
  split; [right; exists 5; evaluate|].
  apply (@news_equal_deletes code_sum (HashTable_new 5) ops_AFB_rmA).
  right. exists 5. evaluate.
Defined.

Lemma Insert_allocates_at_most_one_witness :
  @reachable code_sum table_AFB
  ∧ PrintAll table_AFB = Some out_AFB
  ∧ ∃ n, @Insert_news code_sum bid_A2 table_AFB = Some n
         ∧ (n ≤ 1)%nat
         ∧ (bidId bid_A2 ∈ printed_ids out_AFB → n = 0%nat).
Proof.
  split; [reached_by 5 ops_AFB|]. split; [reflexivity|].
  apply (@Insert_allocates_at_most_one code_sum bid_A2 table_AFB out_AFB).
  - reached_by 5 ops_AFB.
  - reflexivity.
Defined.

Lemma Remove_deletes_at_most_one_witness :
  @reachable code_sum table_AFB
  ∧ PrintAll table_AFB = Some out_AFB
  ∧ ∃ d, @Remove_deletes code_sum "Z" table_AFB = Some d
         ∧ (d ≤ 1)%nat
         ∧ ("Z" ∉ printed_ids out_AFB → d = 0%nat).
Proof.
  split; [reached_by 5 ops_AFB|]. split; [reflexivity|].
  apply (@Remove_deletes_at_most_one code_sum "Z" table_AFB out_AFB).
  - reached_by 5 ops_AFB.
  - reflexivity.
Defined.

Lemma strToDouble_ignores_char_witness :
  @strToDouble digits_atof "1$2" "$" = @strToDouble digits_atof "12" "$"
  ∧ (¬ In "$"%char (list_ascii_of_string "12") →
     @strToDouble digits_atof "1$2" "$" = S754_finite false 12 0).
Proof.
  apply (@strToDouble_ignores_char digits_atof "1" "2" "$").
Defined.

Lemma loadBids_last_row_wins_witness :
  @reachable code_sum (HashTable_new 5)
  ∧ ∃ t', @loadBids code_sum digits_atof file_AAxB (HashTable_new 5) = Some t'
          ∧ @reachable code_sum t'
          ∧ @Search code_sum "A" t' = Some bid_A_row1
          ∧ @Search code_sum "B" t' = Some Bid_default.
Proof.
  split; [reached_by 5 (@nil Op)|].
  destruct (@loadBids_last_row_wins code_sum digits_atof file_AAxB
              (HashTable_new 5) ltac:(reached_by 5 (@nil Op)))
    as (t' & Hload & Hreach & Hsearch).
  exists t'. split; [exact Hload|]. split; [exact Hreach|].
  split; [exact (Hsearch "A")|exact (Hsearch "B")].
Defined.

Lemma loadBids_stops_at_unreadable_row_witness :
  (2 < @rowCount file_AAxB)%nat
  ∧ @row_bid digits_atof file_AAxB 2 = None
  ∧ @loadBids code_sum digits_atof file_AAxB (HashTable_new 5)
    = @loadBids code_sum digits_atof (mkCsvFile 2 (@cell file_AAxB))
        (HashTable_new 5).
Proof.
  split; [evaluate; lia|]. split; [reflexivity|].
  apply (@loadBids_stops_at_unreadable_row code_sum digits_atof file_AAxB 2
           (HashTable_new 5)).
  - simpl. lia.
  - reflexivity.
Defined.
